(** * tiny-chat: the incremental decoding engine of [src/App.jsx]

    A shallow embedding of the numerical and state logic of the chat widget:
    the math helpers ([matMul], [softmax]), the toy tokenizer ([encode],
    [decode]), the IndexedDB helpers ([openDB], [getKV], [putKV]), the decoder step
    ([transformerStep]) and the generation loop ([generateBotResponse]).

    JavaScript numbers are IEEE-754 binary64 values, so they are embedded as
    Rocq's primitive [float]; arrays are lists, and a read past the end of an
    array of numbers is the [NaN] that [undefined] becomes in arithmetic; the
    object held by [kvCacheRef.current] is a finite map from layer index to
    cache entry; exceptions and the mutable cache are threaded through a
    small state-and-exception monad. [Math.exp], [Math.random] and the number
    of arguments a call takes, which the language leaves to the host, are
    parameters of the model.

    The file has the definitions first: the program, the shapes of its data,
    the decoder step as the specification words it ([Spec]), and a concrete
    host ([Host]) on which the model runs. The properties follow. *)

From Stdlib Require Import ZArith NArith List Lia Bool Floats Zpower.
From stdpp Require Import base option list gmap strings pretty.

Local Open Scope Z_scope.
Set Warnings "-inexact-float".

(** ** JavaScript values used by the program *)

Abbreviation vec := (list float).
Abbreviation matrix := (list (list float)).

(** A thrown exception. The numerical code can raise two: the [TypeError] of
    a property read on [undefined], and the [RangeError] of a call that is
    given more arguments than the engine takes. *)
Inductive exn := TypeError | RangeError.

Inductive result (A : Type) :=
| Ok (a : A)
| Throw (e : exn).
Arguments Ok {A} a.
Arguments Throw {A} e.

(** [v[i]] used as an operand of [*] or [+]: past the end the read yields
    [undefined], which [ToNumber] turns into [NaN]. *)
Definition num_at (v : vec) (i : nat) : float := nth i v nan.

(** [M[i]] for a row index the loops keep in range. *)
Definition row_at (m : matrix) (i : nat) : vec := nth i m [].

(** [Ws[l]] for a per-layer family of matrices; for an index out of range the
    empty matrix stands for [undefined]: [matMul] throws on both. *)
Definition weights_at (Ws : list matrix) (l : nat) : matrix := nth l Ws [].

(** ** Host functions: [Math.max] and [Array.prototype.indexOf] *)

Definition is_pos_zero (x : float) : bool :=
  match classify x with PZero => true | _ => false end.

Definition is_neg_zero (x : float) : bool :=
  match classify x with NZero => true | _ => false end.

(** The loop of ECMAScript's [Math.max]: [highest] starts at [-Infinity]; a
    [NaN] argument makes the result [NaN]; [+0] beats [-0]. *)
Fixpoint max_from (highest : float) (coerced : list float) : float :=
  match coerced with
  | [] => highest
  | number :: rest =>
      if is_nan number then nan
      else if is_pos_zero number && is_neg_zero highest then max_from number rest
      else if (highest <? number)%float then max_from number rest
      else max_from highest rest
  end.

Definition Math_max (args : list float) : float := max_from neg_infinity args.

(** [arr.indexOf(x)]: the first index whose element is strictly equal ([===])
    to [x], or [-1]. On numbers [===] is IEEE equality: [NaN] equals nothing. *)
Fixpoint index_from (i : Z) (arr : list float) (x : float) : Z :=
  match arr with
  | [] => -1
  | y :: rest => if (y =? x)%float then i else index_from (i + 1) rest x
  end.

Definition indexOf (arr : list float) (x : float) : Z := index_from 0 arr x.

(** [f(...args)]: the array is spread into the arguments of one call. An
    engine takes only so many arguments ([max_arguments], which the language
    leaves to it) and throws a [RangeError] past that. *)
Definition spread {A} (max_arguments : nat) (f : list float → A) (args : list float)
  : result A :=
  if decide (length args ≤ max_arguments)%nat then Ok (f args) else Throw RangeError.

(** ** Tiny transformer parameters (lines 34-38) *)

Definition d_model : nat := 32.
Definition n_layers : nat := 2.
Definition vocab_size : nat := 100.
Definition EOS : Z := 99.
Definition maxTokens : nat := 100.

Record params := Params {
  Wq : list matrix;
  Wk : list matrix;
  Wv : list matrix;
  Wo : list matrix;
  W_embed : matrix;
  W_out : matrix
}.

(** [randomMatrix(rows, cols)], reading [Math.random()] as the stream [random]
    from call number [start] on: rows are filled one after the other. *)
Definition randomMatrix (random : N → float) (start : N) (rows cols : nat) : matrix :=
  map (λ i, map (λ j, (random (start + N.of_nat i * N.of_nat cols + N.of_nat j)%N
                       * 0.2 - 0.1)%float)
                (seq 0 cols))
      (seq 0 rows).

(** The module-level constants [Wq], [Wk], [Wv], [Wo], [W_embed], [W_out], in
    the order the module initialises them. *)
Definition init_params (random : N → float) : params :=
  let sq := (N.of_nat d_model * N.of_nat d_model)%N in
  let per_family := (N.of_nat n_layers * sq)%N in
  let family (f : N) :=
    map (λ l, randomMatrix random (f * per_family + N.of_nat l * sq)%N d_model d_model)
        (seq 0 n_layers) in
  {| Wq := family 0%N;
     Wk := family 1%N;
     Wv := family 2%N;
     Wo := family 3%N;
     W_embed := randomMatrix random (4 * per_family)%N vocab_size d_model;
     W_out := randomMatrix random
                (4 * per_family + N.of_nat vocab_size * N.of_nat d_model)%N
                d_model vocab_size |}.

(** ** Math helpers (lines 54-69) *)

(** [for (let i = 0; i < n; i++) body(i)] on a loop-carried value. *)
Definition for_loop {S : Type} (n : nat) (body : nat → S → S) (init : S) : S :=
  fold_left (λ s i, body i s) (seq 0 n) init.

(** [out[i][j] += d] on an array of rows. *)
Definition add_to_cell (i j : nat) (d : float) (out : matrix) : matrix :=
  alter (alter (λ c, (c + d)%float) j) i out.

(** [matMul(A, B)]. [B[0].length] throws when [B] has no row. *)
Definition matMul (A B : matrix) : result matrix :=
  match B with
  | [] => Throw TypeError
  | B0 :: _ =>
      let rows := length A in
      let cols := length B0 in
      let K := length B in
      let out := replicate rows (replicate cols 0%float) in
      Ok (for_loop rows (λ i,
            for_loop cols (λ j,
              for_loop K (λ k,
                add_to_cell i j (num_at (row_at A i) k * num_at (row_at B k) j)%float)))
            out)
  end.

(** [matMul([x], W)[0]] *)
Definition matMul_row (x : vec) (W : matrix) : result vec :=
  match matMul [x] W with
  | Ok out => Ok (row_at out 0)
  | Throw e => Throw e
  end.

Section Softmax.
(** [Math.exp] is implementation-approximated, and the number of arguments a
    call may take is the engine's: both stay parameters. *)
Variable max_arguments : nat.
Variable Math_exp : float → float.

(** [softmax(vec)]; line 65 is [Math.max(...vec)]. *)
Definition softmax (v : vec) : result vec :=
  match spread max_arguments Math_max v with
  | Throw e => Throw e
  | Ok max =>
      let exps := map (λ x, Math_exp (x - max)%float) v in
      let sum := fold_left (λ a b, (a + b)%float) exps 0%float in
      Ok (map (λ x, (x / sum)%float) exps)
  end.
End Softmax.

(** ** Tokenizer (lines 72-77)

    A JavaScript string is a sequence of UTF-16 code units. *)
Module Tokenizer.

Definition js_string := list N.

Definition is_high_surrogate (u : N) : bool := (0xD800 <=? u)%N && (u <=? 0xDBFF)%N.
Definition is_low_surrogate (u : N) : bool := (0xDC00 <=? u)%N && (u <=? 0xDFFF)%N.

(** [Array.from(str)]: the string iterator yields one element per code
    point, keeping a surrogate pair together. *)
Fixpoint Array_from (str : js_string) : list js_string :=
  match str with
  | [] => []
  | u :: rest =>
      match rest with
      | u' :: rest' =>
          if is_high_surrogate u && is_low_surrogate u'
          then [u; u'] :: Array_from rest'
          else [u] :: Array_from rest
      | [] => [[u]]
      end
  end.

(** [c.charCodeAt(0)] of a non-empty element. *)
Definition charCodeAt0 (c : js_string) : Z := Z.of_N (hd 0%N c).

(** [String.fromCharCode(n)]: the code unit [ToUint16(n)]. *)
Definition fromCharCode (n : Z) : js_string := [Z.to_N (n mod 65536)].

Definition encode (str : js_string) : list Z :=
  map (λ c, Z.rem (charCodeAt0 c) (Z.of_nat vocab_size - 1)) (Array_from str).

Definition decode (arr : list Z) : js_string :=
  concat (map (λ x, if x =? EOS then [] else fromCharCode (x + 65)) arr).

End Tokenizer.

(** ** KV cache entries and the IndexedDB helpers (lines 7-31) *)

Record kv := KV { keys : list vec; values : list vec }.

Definition empty_kv : kv := {| keys := []; values := [] |}.

Module Idb.

Inductive DOMException := DOMError (name : string).

(** How an [IDBRequest] ends: [onsuccess] with [request.result], or
    [onerror] with [request.error]. *)
Inductive request (A : Type) :=
| onsuccess (res : A)
| onerror (err : DOMException).
Arguments onsuccess {A} res.
Arguments onerror {A} err.

Inductive promise (A : Type) :=
| Resolved (value : A)
| Rejected (reason : DOMException).
Arguments Resolved {A} value.
Arguments Rejected {A} reason.

(** How a call that may throw ends. *)
Inductive completion (A : Type) :=
| returned (a : A)
| thrown (err : DOMException).
Arguments returned {A} a.
Arguments thrown {A} err.

(** What the browser answers: the outcome of [objectStore.get(key)] on the
    object store ([None] is the [undefined] result of a missing key); the
    outcome of [db.transaction(STORE_NAME, ...).objectStore(STORE_NAME)] on
    an opened database, which throws when the database has no such store;
    and the outcome of [indexedDB.open]. *)
Record IDBObjectStore := { store_get : string → request (option kv) }.
Record IDBDatabase := { transaction : completion IDBObjectStore }.
Record browser := { indexedDB_open : request IDBDatabase }.

Definition openDB (env : browser) : promise IDBDatabase :=
  match indexedDB_open env with
  | onsuccess db => Resolved db
  | onerror e => Rejected e
  end.

(** [`layer_${layer}`] *)
Definition layer_key (layer : nat) : string := "layer_" +:+ pretty layer.

(** [getKV(layer)]: [openDB().then(db => new Promise(resolve => ...))]. A
    rejected [openDB()] skips the [then] callback; an exception thrown inside
    the executor of the new promise rejects it. *)
Definition getKV (env : browser) (layer : nat) : promise kv :=
  match openDB env with
  | Rejected e => Rejected e
  | Resolved db =>
      match transaction db with
      | thrown err => Rejected err
      | returned store =>
          match store_get store (layer_key layer) with
          | onsuccess res => Resolved (default empty_kv res)
          | onerror _ => Resolved empty_kv
          end
      end
  end.

(** The effect of lines 86-92: [kvCacheRef.current[l] = await getKV(l)] for
    each layer in turn; a rejection ends the async function there. *)
Fixpoint load_layers (env : browser) (ls : list nat) (c : gmap nat kv) : gmap nat kv :=
  match ls with
  | [] => c
  | l :: rest =>
      match getKV env l with
      | Resolved e => load_layers env rest (<[l := e]> c)
      | Rejected _ => c
      end
  end.

Definition load_cache (env : browser) : gmap nat kv :=
  load_layers env (seq 0 n_layers) ∅.

End Idb.

(** ** The state-and-exception monad of the decoder

    The state is the object [kvCacheRef.current]; a thrown exception keeps the
    state reached so far. *)
Definition M (A : Type) : Type := gmap nat kv → result A * gmap nat kv.

Definition ret {A} (a : A) : M A := λ c, (Ok a, c).

Definition bind {A B} (m : M A) (f : A → M B) : M B :=
  λ c, match m c with
       | (Ok a, c') => f a c'
       | (Throw e, c') => (Throw e, c')
       end.

Definition throw {A} (e : exn) : M A := λ c, (Throw e, c).

Definition lift {A} (r : result A) : M A := λ c, (r, c).

Definition read_entry (l : nat) : M (option kv) := λ c, (Ok (c !! l), c).

Definition write_entry (l : nat) (e : kv) : M unit := λ c, (Ok tt, <[l := e]> c).

Notation "'let*' x ':=' m 'in' k" := (bind m (λ x, k))
  (at level 10, x name, m at level 100, k at level 200).

(** ** Decoder step and generation loop (lines 94-131) *)
Section Decoder.
Variable max_arguments : nat.
Variable Math_exp : float → float.
Variable P : params.

(** [W_embed[inputToken]]: [undefined] outside [0 .. vocab_size-1]. *)
Definition embedding (inputToken : Z) : option vec :=
  if inputToken <? 0 then None else W_embed P !! Z.to_nat inputToken.

(** Line 104: [kvk.reduce((a, b, i) => a + kvk[i] * q[i], 0)]. *)
Definition score (q kvk : vec) : float :=
  fold_left (λ a i, (a + num_at kvk i * num_at q i)%float) (seq 0 (length kvk)) 0%float.

(** Lines 106-109: [attn] starts as [d_model] zeros; for each cached value
    [i] and each [j], [attn[j] += kv.values[i][j] * probs[i]]. *)
Definition attention (vals : list vec) (probs : vec) : vec :=
  let attn := replicate d_model 0%float in
  for_loop (length vals) (λ i,
    for_loop d_model (λ j,
      alter (λ attn_j, (attn_j + num_at (row_at vals i) j * num_at probs i)%float) j))
    attn.

(** One iteration of the layer loop (lines 97-113). [kv] aliases the stored
    entry when there is one, so the two [push]es are visible in
    [kvCacheRef.current] at once; a fresh entry is attached by line 112, which
    a throwing [softmax] or [matMul] does not reach. [putKV] is not awaited
    and nothing reads its result. *)
Definition layer_step (l : nat) (x : vec) : M vec :=
  let* stored := read_entry l in
  let kv0 := default empty_kv stored in
  let* q := lift (matMul_row x (weights_at (Wq P) l)) in
  let* k := lift (matMul_row x (weights_at (Wk P) l)) in
  let* v := lift (matMul_row x (weights_at (Wv P) l)) in
  let kv1 := {| keys := keys kv0 ++ [k]; values := values kv0 ++ [v] |} in
  let* _ := (if stored is Some _ then write_entry l kv1 else ret tt) in
  let scores := map (score q) (keys kv1) in
  let* probs := lift (softmax max_arguments Math_exp scores) in
  let attn := attention (values kv1) probs in
  let* x' := lift (matMul_row attn (weights_at (Wo P) l)) in
  let* _ := write_entry l kv1 in
  ret x'.

Fixpoint layer_loop (ls : list nat) (x : vec) : M vec :=
  match ls with
  | [] => ret x
  | l :: rest => let* x' := layer_step l x in layer_loop rest x'
  end.

(** Lines 95-116 of [transformerStep]: the score vector [logits]. When
    [W_embed[inputToken]] is [undefined], the first [matMul] of layer 0 throws
    on reading [A[0][0]], before anything is mutated. *)
Definition step_logits (inputToken : Z) : M vec :=
  match embedding inputToken with
  | None => throw TypeError
  | Some x0 =>
      let* x := layer_loop (seq 0 n_layers) x0 in
      lift (matMul_row x (W_out P))
  end.

(** [transformerStep(inputToken)]: lines 117-118 pick the index; line 117
    is [logits.indexOf(Math.max(...logits))]. *)
Definition transformerStep (inputToken : Z) : M Z :=
  let* logits := step_logits inputToken in
  let* max := lift (spread max_arguments Math_max logits) in
  let maxIdx := indexOf logits max in
  ret maxIdx.

(** The [for] loop of [generateBotResponse] with [n] iterations to go. *)
Fixpoint generate_loop (n : nat) (inputToken : Z) (outputTokens : list Z) : M (list Z) :=
  match n with
  | O => ret outputTokens
  | S n' =>
      let* tok := transformerStep inputToken in
      if tok =? EOS then ret outputTokens
      else generate_loop n' tok (outputTokens ++ [tok])
  end.

(** [generateBotResponse(userTokens)]: with no user token, [inputToken] is
    [undefined] and the first step throws. *)
Definition generateBotResponse (userTokens : list Z) : M (list Z) :=
  match userTokens with
  | [] => throw TypeError
  | inputToken :: _ => generate_loop maxTokens inputToken []
  end.

(** Decoder steps run one after the other on a list of input tokens, each
    starting from the cache the previous one left (a throwing step included). *)
Fixpoint run_steps (toks : list Z) (c : gmap nat kv) : gmap nat kv :=
  match toks with
  | [] => c
  | t :: rest => run_steps rest (snd (transformerStep t c))
  end.

End Decoder.


(** ** Cache shapes *)

(** The entry the layer loop works on: a missing one reads as empty (line 97). *)
Definition entry (c : gmap nat kv) (l : nat) : kv := default empty_kv (c !! l).

(** Equal key/value lengths. *)
Definition entry_wf (e : kv) : Prop := length (keys e) = length (values e).

Definition cache_wf (c : gmap nat kv) : Prop := map_Forall (λ _ e, entry_wf e) c.

(** Every cached key and value is a [d_model]-vector (the data model's type of
    a cache entry). *)
Definition entry_typed (e : kv) : Prop :=
  Forall (λ k : vec, length k = d_model) (keys e) ∧
  Forall (λ v : vec, length v = d_model) (values e).

Definition cache_typed (c : gmap nat kv) : Prop := map_Forall (λ _ e, entry_typed e) c.

(** [e'] is [e] with exactly one key and one value pushed, both
    [d_model]-vectors. *)
Definition appended_one (e e' : kv) : Prop :=
  ∃ k v : vec, length k = d_model ∧ length v = d_model ∧
               keys e' = keys e ++ [k] ∧ values e' = values e ++ [v].

(** The cache leaves room for one more key in every layer: the scores of the
    next step, one per cached key, are no more than a call takes. *)
Definition cache_fits (max_arguments : nat) (c : gmap nat kv) : Prop :=
  ∀ l, (l < n_layers)%nat → (length (keys (entry c l)) < max_arguments)%nat.

(** A vector with a [NaN] entry, and an entry with such a cached value. *)
Definition has_nan (v : vec) : Prop := Exists (λ y, is_nan y = true) v.

Definition holds_nan (e : kv) : Prop := Exists has_nan (values e).

(** A [rows] x [cols] matrix. *)
Definition shape (rows cols : nat) (m : matrix) : Prop :=
  length m = rows ∧ Forall (λ r : vec, length r = cols) m.

(** The shapes [randomMatrix] gives the weights (lines 46-51). *)
Definition params_ok (P : params) : Prop :=
  let square_family (Ws : list matrix) :=
    length Ws = n_layers ∧ Forall (shape d_model d_model) Ws in
  square_family (Wq P) ∧ square_family (Wk P) ∧
  square_family (Wv P) ∧ square_family (Wo P) ∧
  shape vocab_size d_model (W_embed P) ∧ shape d_model vocab_size (W_out P).

Definition valid_token (t : Z) : Prop := 0 ≤ t < Z.of_nat vocab_size.

#[global] Instance valid_token_dec t : Decision (valid_token t).
Proof. unfold valid_token. apply _. Defined.

(** ** The decoder step as the specification words it *)
Module Spec.

(** Dot product of two vectors, summed from index 0 upwards. *)
Definition dot (a b : vec) : float :=
  fold_left (λ acc ab, (acc + ab.1 * ab.2)%float) (zip a b) 0%float.

Definition column (W : matrix) (j : nat) : vec := map (λ r, num_at r j) W.

(** Row vector times a matrix with [cols] columns: entry [j] is the dot product
    of the vector with column [j]. *)
Definition vec_mat (cols : nat) (x : vec) (W : matrix) : vec :=
  map (λ j, dot x (column W j)) (seq 0 cols).

(** The dense product of [A] with a matrix [B] of [cols] columns, row by row. *)
Definition mat_mul (cols : nat) (A B : matrix) : matrix :=
  map (λ r, vec_mat cols r B) A.

Definition scale (v : vec) (p : float) : vec := map (λ y, (y * p)%float) v.

Definition vadd (a b : vec) : vec := zip_with (λ x y, (x + y)%float) a b.

(** The probability-weighted sum of the value vectors. *)
Definition weighted_sum (probs : vec) (vals : list vec) : vec :=
  fold_left (λ acc pv, vadd acc (scale pv.2 pv.1)) (zip probs vals)
            (replicate d_model 0%float).

(** The softmax of a score vector: the exponentials of the scores less their
    maximum, each over their sum. *)
Definition softmax (Math_exp : float → float) (v : vec) : vec :=
  let max := Math_max v in
  let exps := map (λ x, Math_exp (x - max)%float) v in
  let sum := fold_left (λ a b, (a + b)%float) exps 0%float in
  map (λ x, (x / sum)%float) exps.

(** [x] is a maximum entry of [l]: every entry is at most [x]. *)
Definition is_maximum (l : vec) (x : float) : bool :=
  forallb (λ y, (y <=? x)%float) l.

Fixpoint first_index (p : float → bool) (l : vec) : option nat :=
  match l with
  | [] => None
  | x :: rest => if p x then Some 0%nat else S <$> first_index p rest
  end.

(** The first-occurring index of the maximum entry, when there is one. *)
Definition argmax_first (l : vec) : option nat := first_index (is_maximum l) l.

Section Step.
Variable Math_exp : float → float.
Variable P : params.

(** One attention-and-projection layer on input [x] and cache entry [e]. *)
Definition layer (l : nat) (x : vec) (e : kv) : vec * kv :=
  let q := vec_mat d_model x (weights_at (Wq P) l) in
  let k := vec_mat d_model x (weights_at (Wk P) l) in
  let v := vec_mat d_model x (weights_at (Wv P) l) in
  let e' := {| keys := keys e ++ [k]; values := values e ++ [v] |} in
  let scores := map (λ key, dot key q) (keys e') in
  let probs := softmax Math_exp scores in
  let out := weighted_sum probs (values e') in
  (vec_mat d_model out (weights_at (Wo P) l), e').

Fixpoint layers (ls : list nat) (x : vec) (c : gmap nat kv) : vec * gmap nat kv :=
  match ls with
  | [] => (x, c)
  | l :: rest =>
      let xe := layer l x (entry c l) in
      layers rest xe.1 (<[l := xe.2]> c)
  end.

(** The vocabulary-sized score vector after the last layer, and the cache. *)
Definition logits_and_cache (t : nat) (c : gmap nat kv) : vec * gmap nat kv :=
  let xc := layers (seq 0 n_layers) (row_at (W_embed P) t) c in
  (vec_mat vocab_size xc.1 (W_out P), xc.2).

Definition step (t : nat) (c : gmap nat kv) : option nat * gmap nat kv :=
  let lc := logits_and_cache t c in
  (argmax_first lc.1, lc.2).

End Step.

(** The declarative run of the generation loop from input token [t] with [n]
    iterations to go: it stops at the cap, or when a step returns [EOS] (which
    is not emitted); any other token is emitted and becomes the next input. *)
Inductive generates (step : Z → M Z) :
  nat → Z → gmap nat kv → list Z → gmap nat kv → Prop :=
| generates_cap t c :
    generates step 0 t c [] c
| generates_eos n t c c1 :
    step t c = (Ok EOS, c1) →
    generates step (S n) t c [] c1
| generates_emit n t c tok c1 out c2 :
    step t c = (Ok tok, c1) →
    tok ≠ EOS →
    generates step n tok c1 out c2 →
    generates step (S n) t c (tok :: out) c2.

End Spec.

(** The token a step returns for the specification's choice of index:
    [indexOf] answers [-1] when nothing is found. *)
Definition token_of (i : option nat) : Z :=
  match i with Some i => Z.of_nat i | None => -1 end.

(** ** The database behind the helpers, and [putKV] (lines 16-22, 113) *)
Module Persist.
Import Idb.

(** What the browser keeps for the page: the content of the object store
    [kvCache] of the database [LLMDB], and what fails in it. [indexedDB.open]
    fails with [open_error] when there is one; [db.transaction] throws
    [store_error] when there is one (the store is missing); a [get] or a
    [put] request on the store fails likewise. *)
Record disk := Disk {
  content : gmap string kv;
  open_error : option DOMException;
  store_error : option DOMException;
  get_error : option DOMException;
  put_error : option DOMException
}.

(** The answers [openDB] and [getKV] get from that browser. *)
Definition browser_of (d : disk) : browser :=
  {| indexedDB_open :=
       match open_error d with
       | Some err => onerror err
       | None =>
           onsuccess
             {| transaction :=
                  match store_error d with
                  | Some err => thrown err
                  | None =>
                      returned {| store_get := λ key,
                                    match get_error d with
                                    | Some err => onerror err
                                    | None => onsuccess (content d !! key)
                                    end |}
                  end |}
       end |}.

(** The store after [objectStore.put(value, key)], which stores a copy of
    [value] under [key]: a request that fails leaves the store as it was. *)
Definition store_put (d : disk) (key : string) (value : kv) : disk :=
  match put_error d with
  | Some _ => d
  | None => {| content := <[key := value]> (content d);
               open_error := open_error d;
               store_error := store_error d;
               get_error := get_error d;
               put_error := put_error d |}
  end.

(** [putKV(layer, kv)]: [openDB().then(db => { ...put(kv, key); return
    tx.complete; })]. The callback places the request and returns at once:
    no handler is attached to the request or to the transaction, and a
    transaction has no [complete] property, so the promise resolves with
    [undefined] however the request ends. A rejected [openDB()] skips the
    callback, and a [db.transaction] that throws rejects the promise. *)
Definition putKV (d : disk) (layer : nat) (e : kv) : promise unit * disk :=
  match openDB (browser_of d) with
  | Rejected err => (Rejected err, d)
  | Resolved db =>
      match transaction db with
      | thrown err => (Rejected err, d)
      | returned _ => (Resolved tt, store_put d (layer_key layer) e)
      end
  end.

(** The decoder together with the database it writes to. A [putKV] call
    opens the database at once, but its callback, which copies [kv] into the
    store, runs only when the event loop delivers the [success] event of the
    open request: until then the call is pending. Its [kv] is the object held
    in [kvCacheRef.current] for that layer, so a pending call is recorded by
    its layer, and what it will store is the entry as it is when the callback
    runs. *)
Record session := Session {
  cache : gmap nat kv;
  pending : list nat;
  db : disk
}.

Definition MD (A : Type) : Type := session → result A * session.

Definition bindD {A B} (m : MD A) (f : A → MD B) : MD B :=
  λ s, match m s with
       | (Ok a, s') => f a s'
       | (Throw e, s') => (Throw e, s')
       end.

Definition retD {A} (a : A) : MD A := λ s, (Ok a, s).

(** A computation on the cache alone. *)
Definition on_cache {A} (m : M A) : MD A :=
  λ s, let r := m (cache s) in
       (r.1, {| cache := r.2; pending := pending s; db := db s |}).

(** Line 113, [putKV(l, kv)]; the promise is dropped. *)
Definition start_putKV (l : nat) : MD unit :=
  λ s, (Ok tt, {| cache := cache s; pending := pending s ++ [l]; db := db s |}).

Section DecoderWithDatabase.
Variable max_arguments : nat.
Variable Math_exp : float → float.
Variable P : params.

(** One iteration of the layer loop, line 113 included. *)
Definition layer_step_db (l : nat) (x : vec) : MD vec :=
  bindD (on_cache (layer_step max_arguments Math_exp P l x)) (λ x',
  bindD (start_putKV l) (λ _,
  retD x')).

Fixpoint layer_loop_db (ls : list nat) (x : vec) : MD vec :=
  match ls with
  | [] => retD x
  | l :: rest => bindD (layer_step_db l x) (λ x', layer_loop_db rest x')
  end.

(** [transformerStep(inputToken)] with the writes it starts. *)
Definition transformerStep_db (inputToken : Z) : MD Z :=
  match embedding P inputToken with
  | None => λ s, (Throw TypeError, s)
  | Some x0 =>
      bindD (layer_loop_db (seq 0 n_layers) x0) (λ x,
      bindD (on_cache (lift (matMul_row x (W_out P)))) (λ logits,
      bindD (on_cache (lift (spread max_arguments Math_max logits))) (λ max,
      retD (indexOf logits max))))
  end.

(** The oldest pending call gets its callback run. *)
Definition deliver (s : session) : session :=
  match pending s with
  | [] => s
  | l :: rest =>
      {| cache := cache s; pending := rest;
         db := (putKV (db s) l (entry (cache s) l)).2 |}
  end.

(** What happens in the page, one after the other: a call of the decoder
    step, which runs to its end without giving way to the event loop, or the
    callback of a pending [putKV]. *)
Inductive event := call_step (inputToken : Z) | run_callback.

Definition after_event (s : session) (ev : event) : session :=
  match ev with
  | call_step t => (transformerStep_db t s).2
  | run_callback => deliver s
  end.

Definition run_events (evs : list event) (s : session) : session :=
  fold_left after_event evs s.

End DecoderWithDatabase.

(** The event loop runs the callbacks of all the pending calls, oldest
    first. *)
Definition settle (s : session) : session :=
  {| cache := cache s;
     pending := [];
     db := fold_left (λ d l, (putKV d l (entry (cache s) l)).2) (pending s) (db s) |}.

(** A page load on database [d], once the loader (lines 86-92) is through. *)
Definition page_load (d : disk) : session :=
  {| cache := load_cache (browser_of d); pending := []; db := d |}.

(** A database that opens, has its store, and whose requests succeed. *)
Definition working (d : disk) : Prop :=
  open_error d = None ∧ store_error d = None ∧ get_error d = None ∧ put_error d = None.

(** Every pending call is for a layer of the model, and every entry that
    differs from what a page load would read has a call pending. *)
Definition tracked (s : session) : Prop :=
  Forall (λ l, (l < n_layers)%nat) (pending s) ∧
  ∀ l, l ∈ pending s ∨ entry (load_cache (browser_of (db s))) l = entry (cache s) l.

(** The input tokens of the decoder steps among the events. *)
Fixpoint tokens_of (evs : list event) : list Z :=
  match evs with
  | [] => []
  | call_step t :: rest => t :: tokens_of rest
  | run_callback :: rest => tokens_of rest
  end.

End Persist.

(** ** A concrete host, to run the model

    [Math.exp] by range reduction and a Taylor polynomial, with the values
    ECMAScript fixes exactly ([NaN], the infinities, [exp(0) = 1]); a linear
    congruential stream for [Math.random]; and calls of up to 65535
    arguments. *)
Module Host.

Definition max_arguments : nat := Z.to_nat 65535.

Definition exp_poly (y : float) : float :=
  fold_right (λ n acc, (1 + y / n * acc)%float) 1%float
    [1; 2; 3; 4; 5; 6; 7; 8; 9; 10; 11; 12; 13; 14]%float.

Fixpoint square_times (n : nat) (x : float) : float :=
  match n with
  | O => x
  | S n' => square_times n' (x * x)%float
  end.

Definition Math_exp (x : float) : float :=
  if is_nan x then nan
  else if (x <? -746)%float then 0%float
  else if (710 <? x)%float then infinity
  else square_times 10 (exp_poly (x / 1024)%float).

Definition lcg (n : N) : Z := (Z.of_N n * 1103515245 + 12345) mod 2147483648.

Definition Math_random (n : N) : float :=
  (of_uint63 (Uint63.of_Z (lcg n)) / 2147483648)%float.

Definition P : params := init_params Math_random.

(** A cache whose layer-0 entry holds one cached pair of [d_model]-vectors,
    the value vector made of [NaN]s. *)
Definition nan_cache : gmap nat kv :=
  {[ 0%nat := {| keys := [replicate d_model 0%float];
                 values := [replicate d_model nan] |} ]}.

(** A cache whose layer-0 entry pairs one key with one value, both of them
    empty vectors instead of [d_model]-vectors. *)
Definition ragged_cache : gmap nat kv :=
  {[ 0%nat := {| keys := [[]]; values := [[]] |} ]}.

(** The largest finite number, [Number.MAX_VALUE]. *)
Definition MAX_VALUE : float := 0x1.fffffffffffffp+1023%float.

(** A cache whose layer-0 entry has two keys and one value. *)
Definition skewed_cache : gmap nat kv :=
  {[ 0%nat := {| keys := [replicate d_model 0%float; replicate d_model 0%float];
                 values := [replicate d_model 0%float] |} ]}.

(** A cache whose layer-0 entry has one key and two values. *)
Definition short_keys_cache : gmap nat kv :=
  {[ 0%nat := {| keys := [replicate d_model 0%float];
                 values := [replicate d_model 0%float; replicate d_model 0%float] |} ]}.

(** A cache whose layer-0 entry holds as many pairs of [d_model]-vectors as a
    call takes arguments. *)
Definition full_cache : gmap nat kv :=
  {[ 0%nat := {| keys := replicate max_arguments (replicate d_model 0%float);
                 values := replicate max_arguments (replicate d_model 0%float) |} ]}.

(** A browser in which [indexedDB.open] fails, one whose database opens but
    has no object store [kvCache], and one whose store holds an entry for
    layer 0 only. *)
Definition no_storage : Idb.browser :=
  {| Idb.indexedDB_open := Idb.onerror (Idb.DOMError "UnknownError") |}.

Definition stored_entry : kv :=
  {| keys := [replicate d_model 1%float]; values := [replicate d_model 2%float] |}.

Definition no_store : Idb.browser :=
  {| Idb.indexedDB_open :=
       Idb.onsuccess {| Idb.transaction := Idb.thrown (Idb.DOMError "NotFoundError") |} |}.

Definition one_layer_stored : Idb.browser :=
  {| Idb.indexedDB_open :=
       Idb.onsuccess
         {| Idb.transaction :=
              Idb.returned
                {| Idb.store_get := λ key,
                     if String.eqb key "layer_0" then Idb.onsuccess (Some stored_entry)
                     else Idb.onsuccess None |} |} |}.

(** The cache the loader leaves in that second browser. *)
Definition loaded_cache : gmap nat kv :=
  <[1%nat := empty_kv]> (<[0%nat := stored_entry]> ∅).

(** A database that works and has that entry stored for layer 0. *)
Definition working_disk : Persist.disk :=
  {| Persist.content := {[ "layer_0" := stored_entry ]};
     Persist.open_error := None;
     Persist.store_error := None;
     Persist.get_error := None;
     Persist.put_error := None |}.

(** The same database with no room left: its [put] requests fail. *)
Definition full_disk : Persist.disk :=
  {| Persist.content := {[ "layer_0" := stored_entry ]};
     Persist.open_error := None;
     Persist.store_error := None;
     Persist.get_error := None;
     Persist.put_error := Some (Idb.DOMError "QuotaExceededError") |}.

End Host.


(** ** The order of binary64 values

    [SFcompare] orders the non-[NaN] values like the lexicographic order of
    their ranks: the sign class first, then exponent and mantissa (negated for
    negative values). Both zeros share a rank. *)
Module FloatOrder.

Definition rank (f : spec_float) : Z * (Z * Z) :=
  match f with
  | S754_nan => (0, (0, 0))
  | S754_zero _ => (0, (0, 0))
  | S754_infinity false => (2, (0, 0))
  | S754_infinity true => (-2, (0, 0))
  | S754_finite false m e => (1, (e, Z.pos m))
  | S754_finite true m e => (-1, (- e, Z.neg m))
  end.

Definition lex_compare (a b : Z * (Z * Z)) : comparison :=
  match a.1 ?= b.1 with
  | Eq => match a.2.1 ?= b.2.1 with
          | Eq => a.2.2 ?= b.2.2
          | c => c
          end
  | c => c
  end.

Definition rank_of (x : float) : Z * (Z * Z) := rank (Prim2SF x).

(** [x] is at most [y] in rank. *)
Definition rank_le (x y : float) : Prop := lex_compare (rank_of x) (rank_of y) ≠ Gt.




End FloatOrder.

(** * Properties *)

(** ** Tokenizer *)
Module TokenizerFacts.
Import Tokenizer.

Lemma EOS_is_last_token : EOS = Z.of_nat vocab_size - 1.
Proof. reflexivity. Qed.

Lemma charCodeAt0_nonneg c : 0 ≤ charCodeAt0 c.
Proof. unfold charCodeAt0. lia. Qed.

Lemma encode_token_range c :
  let t := Z.rem (charCodeAt0 c) (Z.of_nat vocab_size - 1) in
  0 ≤ t ≤ Z.of_nat vocab_size - 2 ∧ t = charCodeAt0 c mod (Z.of_nat vocab_size - 1).
Proof.
  pose proof (charCodeAt0_nonneg c) as Hc.
  change (Z.of_nat vocab_size - 1) with 99. change (Z.of_nat vocab_size - 2) with 98.
  cbv zeta. rewrite Z.rem_mod_nonneg by lia.
  pose proof (Z.mod_pos_bound (charCodeAt0 c) 99). lia.
Qed.

(** Without surrogate pairs the iterator yields the code units one by one. *)
Lemma Array_from_bmp str :
  Forall (λ u, is_high_surrogate u = false) str →
  Array_from str = map (λ u, [u]) str.
Proof.
  induction 1 as [|u rest Hu _ IH]; [done|].
  cbn [Array_from map]. destruct rest as [|u' rest']; [done|].
  rewrite Hu. cbn [andb]. by rewrite IH.
Qed.

Lemma Array_from_nonempty str : str ≠ [] → ∃ u c cs, Array_from str = (u :: c) :: cs ∧ hd 0%N str = u.
Proof.
  destruct str as [|u rest]; [done|]. intros _. cbn [Array_from hd].
  destruct rest as [|u' rest']; [by eexists _, _, _|].
  destruct (is_high_surrogate u && is_low_surrogate u'); by eexists _, _, _.
Qed.

Lemma decode_cons x arr :
  decode (x :: arr) = (if x =? EOS then [] else fromCharCode (x + 65)) ++ decode arr.
Proof. reflexivity. Qed.

Lemma decode_app a b : decode (a ++ b) = decode a ++ decode b.
Proof. unfold decode. by rewrite map_app, concat_app. Qed.

(** [decode(encode(s))] never gives [s] back, unless [s] is empty: the first
    code unit [u] would have to equal [u mod 99 + 65]. *)
Lemma decode_encode_differs str : str ≠ [] → decode (encode str) ≠ str.
Proof.
  intros Hne. destruct (Array_from_nonempty str Hne) as (u & c & cs & Hfrom & Hhd).
  unfold encode. rewrite Hfrom. cbn [map]. rewrite decode_cons.
  destruct (encode_token_range (u :: c)) as [Hrange Hmod]. cbv zeta in Hrange, Hmod.
  change (Z.of_nat vocab_size - 1) with 99 in *. change (Z.of_nat vocab_size - 2) with 98 in *.
  set (t := Z.rem (charCodeAt0 (u :: c)) 99) in *.
  destruct (Z.eqb_spec t EOS) as [HE|_]; [unfold EOS in HE; lia|].
  destruct str as [|u0 rest]; [done|]. cbn [hd] in Hhd. subst u0.
  unfold fromCharCode. cbn [app]. intros [= Hu _].
  rewrite Z.mod_small in Hu by lia.
  unfold charCodeAt0 in Hmod. cbn [hd] in Hmod.
  pose proof (Z.div_mod (Z.of_N u) 99 ltac:(lia)) as Hdm.
  assert (Z.of_N u = t + 65) as Hu' by lia.
  lia.
Qed.

End TokenizerFacts.

(** C8: [encode] maps every character (an element of [Array.from(str)]) to
    its character code modulo [vocab_size - 1], so every token lies in
    [0 .. vocab_size-2] and is never [EOS], and on a string without surrogate
    pairs the characters are the code units; [decode] maps [EOS] to the empty
    string and every other token id [x] of the vocabulary to the single
    character of code [x + 65], token by token. *)
Theorem encode_decode_contract :
  (∀ str, Tokenizer.encode str =
          map (λ c, Tokenizer.charCodeAt0 c mod (Z.of_nat vocab_size - 1))
              (Tokenizer.Array_from str)) ∧
  (∀ str, Forall (λ t, 0 ≤ t ≤ Z.of_nat vocab_size - 2 ∧ t ≠ EOS) (Tokenizer.encode str)) ∧
  (∀ str, Forall (λ u, Tokenizer.is_high_surrogate u = false) str →
          Tokenizer.encode str = map (λ u, Z.of_N u mod (Z.of_nat vocab_size - 1)) str) ∧
  Tokenizer.decode [EOS] = [] ∧
  (∀ x, valid_token x → x ≠ EOS → Tokenizer.decode [x] = [Z.to_N (x + 65)]) ∧
  (∀ a b, Tokenizer.decode (a ++ b) = Tokenizer.decode a ++ Tokenizer.decode b).
Proof.
  split_and!.
  - intros str. unfold Tokenizer.encode. apply map_ext. intros c.
    apply (TokenizerFacts.encode_token_range c).
  - intros str. unfold Tokenizer.encode. apply Forall_map, Forall_forall. intros c _.
    destruct (TokenizerFacts.encode_token_range c) as [H _]. cbv zeta in H.
    cbn beta. unfold EOS. change (Z.of_nat vocab_size) with 100 in *. lia.
  - intros str Hbmp. unfold Tokenizer.encode.
    rewrite (TokenizerFacts.Array_from_bmp str Hbmp), map_map. apply map_ext. intros u.
    apply (TokenizerFacts.encode_token_range [u]).
  - reflexivity.
  - intros x [Hlo Hhi] Hne. unfold Tokenizer.decode. cbn [map concat].
    destruct (Z.eqb_spec x EOS) as [|_]; [done|].
    unfold Tokenizer.fromCharCode. rewrite app_nil_r, Z.mod_small; [done|].
    change (Z.of_nat vocab_size) with 100 in Hhi. lia.
  - apply TokenizerFacts.decode_app.
Qed.

(** C9: the tokenizer round trip is not the identity: some string [s] has
    [decode(encode(s)) <> s]; and the modulo makes [encode] many-to-one, so no
    decoder could undo it. *)
Theorem roundtrip_is_lossy :
  (∃ s, Tokenizer.decode (Tokenizer.encode s) ≠ s) ∧
  (∃ s1 s2, s1 ≠ s2 ∧ Tokenizer.encode s1 = Tokenizer.encode s2).
Proof.
  split.
  - exists [65%N]. by apply TokenizerFacts.decode_encode_differs.
  - exists [1%N], [100%N]. split; [congruence | reflexivity].
Qed.

(** ** IndexedDB loader *)

Lemma getKV_open_ok store layer :
  Idb.getKV {| Idb.indexedDB_open :=
                 Idb.onsuccess {| Idb.transaction := Idb.returned store |} |} layer =
  Idb.Resolved match Idb.store_get store (Idb.layer_key layer) with
               | Idb.onsuccess (Some e) => e
               | _ => empty_kv
               end.
Proof.
  unfold Idb.getKV, Idb.openDB. cbn.
  by destruct (Idb.store_get store (Idb.layer_key layer)) as [[e|]|err].
Qed.

(** On a database without the object store the rejection comes from the
    executor, although the database opened. *)
Lemma getKV_no_store_example :
  Idb.getKV Host.no_store 0 = Idb.Rejected (Idb.DOMError "NotFoundError") ∧
  Idb.load_cache Host.no_store = ∅.
Proof. split; reflexivity. Qed.

Lemma getKV_stored_example :
  Idb.getKV Host.one_layer_stored 0 = Idb.Resolved Host.stored_entry ∧
  Idb.getKV Host.one_layer_stored 1 = Idb.Resolved empty_kv.
Proof. split; reflexivity. Qed.

Lemma getKV_no_storage_example :
  Idb.getKV Host.no_storage 0 = Idb.Rejected (Idb.DOMError "UnknownError") ∧
  entry (Idb.load_cache Host.no_storage) 0 = empty_kv.
Proof. split; reflexivity. Qed.

(** C6, where the code departs from it: when [indexedDB.open] fails, [openDB]
    rejects and [getKV] passes the rejection on to its caller instead of
    resolving with the empty entry; the loader stops at the first layer. *)
Theorem getKV_rejects_when_open_fails err layer :
  let env := {| Idb.indexedDB_open := Idb.onerror err |} in
  Idb.getKV env layer = Idb.Rejected err ∧ Idb.load_cache env = ∅.
Proof. split; reflexivity. Qed.

(** ** Index loops against folds over the data *)

Lemma fold_left_seq_succ {A} (f : A → nat → A) n s init :
  fold_left f (seq (S s) n) init = fold_left (λ a k, f a (S k)) (seq s n) init.
Proof.
  revert s init. induction n as [|n IH]; intros s init; [done|].
  cbn [seq fold_left]. apply IH.
Qed.

Lemma fold_left_seq_ext {A} (f g : A → nat → A) n s init :
  (∀ a k, (s ≤ k < s + n)%nat → f a k = g a k) →
  fold_left f (seq s n) init = fold_left g (seq s n) init.
Proof.
  revert s init. induction n as [|n IH]; intros s init Hfg; [done|].
  cbn [seq fold_left]. rewrite Hfg by lia. apply IH. intros a k Hk. apply Hfg. lia.
Qed.

Lemma map_seq_ext {A} (f g : nat → A) n s :
  (∀ k, (s ≤ k < s + n)%nat → f k = g k) → map f (seq s n) = map g (seq s n).
Proof.
  intros Hfg. apply map_ext_in. intros k Hk. apply in_seq in Hk. apply Hfg. lia.
Qed.

Lemma map_seq_rows {A} (g : vec → A) (m : matrix) :
  map (λ i, g (row_at m i)) (seq 0 (length m)) = map g m.
Proof.
  induction m as [|r m IH]; [done|].
  cbn [length seq map]. f_equal. rewrite <- seq_shift, map_map. exact IH.
Qed.

Lemma num_at_column W j k : num_at (Spec.column W j) k = num_at (row_at W k) j.
Proof.
  unfold Spec.column, num_at, row_at. revert k.
  induction W as [|r W IH]; intros [|k]; cbn; try done; by destruct j.
Qed.

Lemma length_column W j : length (Spec.column W j) = length W.
Proof. unfold Spec.column. by rewrite length_map. Qed.

(** The index loop of a dot product is the fold over the paired entries. *)
Lemma index_loop_dot (a b : vec) init :
  length a = length b →
  fold_left (λ acc k, (acc + num_at a k * num_at b k)%float) (seq 0 (length a)) init =
  fold_left (λ acc ab, (acc + ab.1 * ab.2)%float) (zip a b) init.
Proof.
  revert b init. induction a as [|x a IH]; intros [|y b] init Hlen; try done.
  cbn [length seq fold_left zip zip_with]. rewrite fold_left_seq_succ.
  cbn [fst snd]. apply (IH b). by injection Hlen.
Qed.

(** ** Loops that update an array in place *)

(** Updating slot [i] again and again is one update with the composed change. *)
Lemma fold_left_alter {A B} (h : B → A → A) (i : nat) (bs : list B) (l : list A) :
  fold_left (λ l b, alter (h b) i l) bs l =
  alter (λ x, fold_left (λ x b, h b x) bs x) i l.
Proof.
  revert l. induction bs as [|b bs IH]; intros l; cbn [fold_left].
  - symmetry. by apply list_alter_id.
  - rewrite IH. by rewrite list_alter_alter_eq.
Qed.

Lemma fold_alter_lookup {A} (f : nat → A → A) n (l : list A) k :
  fold_left (λ s i, alter (f i) i s) (seq 0 n) l !! k =
  if decide (k < n)%nat then f k <$> l !! k else l !! k.
Proof.
  revert k. induction n as [|n IH]; intros k; [done|].
  rewrite seq_S, fold_left_app. cbn [fold_left Nat.add].
  rewrite list_lookup_alter, !IH.
  repeat case_decide; try lia; try done. by subst.
Qed.

(** Updating every slot in turn, each with its own change. *)
Lemma for_loop_alter_each {A} (f : nat → A → A) (l : list A) :
  for_loop (length l) (λ j, alter (f j) j) l = imap f l.
Proof.
  unfold for_loop. apply list_eq. intros k.
  rewrite fold_alter_lookup, list_lookup_imap.
  case_decide as Hk; [done|]. by rewrite lookup_ge_None_2 by lia.
Qed.

Lemma imap_replicate {A B} (f : nat → A → B) n x :
  imap f (replicate n x) = map (λ i, f i x) (seq 0 n).
Proof.
  revert f. induction n as [|n IH]; intros f; [done|].
  cbn [replicate seq map]. rewrite imap_cons, IH. f_equal.
  by rewrite <- seq_shift, map_map.
Qed.

Lemma for_loop_ext {S} n (body body' : nat → S → S) init :
  (∀ i s, (i < n)%nat → body i s = body' i s) →
  for_loop n body init = for_loop n body' init.
Proof.
  intros Hext. unfold for_loop. apply fold_left_seq_ext. intros s i Hi. apply Hext. lia.
Qed.

Lemma imap_compose {A} (f g : nat → A → A) (l : list A) :
  imap f (imap g l) = imap (λ j x, f j (g j x)) l.
Proof.
  apply list_eq. intros k. rewrite !list_lookup_imap. by destruct (l !! k).
Qed.

(** The three nested loops of [matMul] leave in cell [(i, j)] the sum, from
    [0] and in the order of [k], of the terms added to it. *)
Lemma cell_loops (t : nat → nat → nat → float) rows cols K :
  for_loop rows (λ i, for_loop cols (λ j, for_loop K (λ k, add_to_cell i j (t i j k))))
           (replicate rows (replicate cols 0%float)) =
  map (λ i, map (λ j, fold_left (λ acc k, (acc + t i j k)%float) (seq 0 K) 0%float)
                (seq 0 cols))
      (seq 0 rows).
Proof.
  set (F := λ i j c, fold_left (λ acc k, (acc + t i j k)%float) (seq 0 K) c).
  set (f := λ i (row : vec), for_loop cols (λ j, alter (F i j) j) row).
  rewrite (for_loop_ext rows _ (λ i, alter (f i) i)).
  - rewrite <- (length_replicate rows (replicate cols 0%float)) at 1.
    rewrite for_loop_alter_each, imap_replicate.
    apply map_ext. intros i. unfold f.
    rewrite <- (length_replicate cols 0%float) at 1.
    by rewrite for_loop_alter_each, imap_replicate.
  - intros i out _. unfold f.
    rewrite (for_loop_ext cols _ (λ j, alter (alter (F i j) j) i)).
    + unfold for_loop. apply (fold_left_alter (λ j, alter (F i j) j)).
    + intros j out' _. unfold for_loop, add_to_cell.
      rewrite (fold_left_alter (λ k, alter (λ c, (c + t i j k)%float) j)).
      apply list_alter_ext; [|done]. intros row _.
      apply (fold_left_alter (λ k c, (c + t i j k)%float)).
Qed.

(** The two nested loops of the attention sum leave in [attn[j]] the sum, from
    [0] and in the order of [i], of the terms added to it. *)
Lemma entry_loops (t : nat → nat → float) n d :
  for_loop n (λ i, for_loop d (λ j, alter (λ c, (c + t i j)%float) j))
           (replicate d 0%float) =
  map (λ j, fold_left (λ acc i, (acc + t i j)%float) (seq 0 n) 0%float) (seq 0 d).
Proof.
  assert (∀ (idx : list nat) (attn : vec), length attn = d →
            fold_left (λ attn i, for_loop d (λ j, alter (λ c, (c + t i j)%float) j) attn)
                      idx attn =
            imap (λ j c, fold_left (λ acc i, (acc + t i j)%float) idx c) attn) as Hloop.
  { induction idx as [|i idx IH]; intros attn Hlen; cbn [fold_left].
    - symmetry. apply list_eq. intros k. rewrite list_lookup_imap. by destruct (attn !! k).
    - rewrite <- Hlen at 1. rewrite for_loop_alter_each.
      rewrite IH by by rewrite length_imap. apply imap_compose. }
  unfold for_loop at 1. rewrite Hloop by apply length_replicate.
  apply imap_replicate.
Qed.

(** ** [matMul] *)

Lemma matMul_throws A B : matMul A B = Throw TypeError ↔ B = [].
Proof. unfold matMul. by destruct B. Qed.

Lemma matMul_cell (r : vec) (B : matrix) j :
  length r = length B →
  fold_left (λ out_ij k, (out_ij + num_at r k * num_at (row_at B k) j)%float)
            (seq 0 (length B)) 0%float =
  Spec.dot r (Spec.column B j).
Proof.
  intros Hlen. unfold Spec.dot.
  rewrite <- index_loop_dot by by rewrite length_column.
  rewrite Hlen. apply fold_left_seq_ext. intros a k _. by rewrite num_at_column.
Qed.

Lemma matMul_dense A B k m :
  B ≠ [] → shape k m B → Forall (λ r : vec, length r = k) A →
  matMul A B = Ok (Spec.mat_mul m A B).
Proof.
  intros HB [HlenB Hrows] HA. unfold matMul. destruct B as [|B0 B']; [done|].
  assert (length B0 = m) as -> by by inversion Hrows.
  f_equal. rewrite cell_loops.
  unfold Spec.mat_mul. rewrite <- (map_seq_rows (λ r, Spec.vec_mat m r _) A).
  apply map_seq_ext. intros i Hi. unfold Spec.vec_mat.
  apply map_ext. intros j. apply matMul_cell.
  rewrite HlenB. rewrite Forall_forall in HA. apply HA.
  apply list_elem_of_In, nth_In. lia.
Qed.

Lemma mat_mul_shape n m A B : length A = n → shape n m (Spec.mat_mul m A B).
Proof.
  intros HA. unfold shape, Spec.mat_mul. rewrite length_map. split; [done|].
  apply Forall_map, Forall_forall. intros r _. unfold Spec.vec_mat. cbn.
  by rewrite length_map, length_seq.
Qed.

(** C5, as the code has it: [matMul] checks no shape, and throws (a
    [TypeError]) exactly when [B] has no row, whatever the shape of [A]; on
    conforming shapes with at least one row in [B] it returns the dense
    product, of shape [(A.rows, B.cols)]. *)
Theorem matMul_contract A B :
  (matMul A B = Throw TypeError ↔ B = []) ∧
  (∀ n k m, shape n k A → shape k m B → k ≠ 0%nat →
     matMul A B = Ok (Spec.mat_mul m A B) ∧ shape n m (Spec.mat_mul m A B)).
Proof.
  split; [apply matMul_throws|].
  intros n k m [HlenA HA] HB Hk. split.
  - apply (matMul_dense A B k m); [|done..].
    destruct HB as [HlenB _]. destruct B; [cbn in HlenB; lia | done].
  - by apply mat_mul_shape.
Qed.

Lemma matMul_contract_witness :
  matMul [[1; 2]; [3; 4]]%float [[1; 0]; [0; 1]]%float = Ok [[1; 2]; [3; 4]]%float.
Proof.
  destruct (matMul_contract [[1; 2]; [3; 4]]%float [[1; 0]; [0; 1]]%float) as [_ H].
  destruct (H 2%nat 2%nat 2%nat) as [-> _].
  - split; [reflexivity | repeat constructor].
  - split; [reflexivity | repeat constructor].
  - lia.
  - reflexivity.
Defined.

(** The claim C5 fails on the code: with [A.cols = 3] and [B.rows = 2] the call
    returns a product (the third column of [A] is never read), and with
    conforming shapes [A.cols = B.rows = 0] it throws. *)
Lemma matMul_ignores_shape_mismatch :
  length [1; 2; 3]%float ≠ length [[1]; [1]]%float ∧
  matMul [[1; 2; 3]]%float [[1]; [1]]%float = Ok [[3]]%float ∧
  shape 1 0 [[]] ∧ shape 0 0 [] ∧ matMul [[]] [] = Throw TypeError.
Proof.
  split_and!; try reflexivity; try (cbn; lia); split; try reflexivity; repeat constructor.
Qed.

(** ** Comparisons of JavaScript numbers *)
Module FloatFacts.
Import FloatOrder.

Lemma SFcompare_rank f g :
  f ≠ S754_nan → g ≠ S754_nan →
  SFcompare f g = Some (lex_compare (rank f) (rank g)).
Proof.
  intros Hf Hg.
  destruct f as [sf|sf| |sf mf ef], g as [sg|sg| |sg mg eg]; try congruence;
    try destruct sf; try destruct sg; try reflexivity.
  unfold SFcompare, lex_compare, rank; cbn [fst snd].
  rewrite Z.compare_refl, Z.compare_opp, (Z.compare_antisym ef eg).
  destruct (ef ?= eg) eqn:E; cbn; reflexivity.
Qed.

Lemma lex_compare_refl a : lex_compare a a = Eq.
Proof. unfold lex_compare. by rewrite !Z.compare_refl. Qed.

Lemma lex_compare_antisym a b : lex_compare b a = CompOpp (lex_compare a b).
Proof.
  unfold lex_compare.
  rewrite (Z.compare_antisym a.1 b.1), (Z.compare_antisym a.2.1 b.2.1),
    (Z.compare_antisym a.2.2 b.2.2).
  by destruct (a.1 ?= b.1), (a.2.1 ?= b.2.1), (a.2.2 ?= b.2.2).
Qed.

Lemma lex_compare_le_trans a b c :
  lex_compare a b ≠ Gt → lex_compare b c ≠ Gt → lex_compare a c ≠ Gt.
Proof.
  destruct a as [a1 [a2 a3]], b as [b1 [b2 b3]], c as [c1 [c2 c3]].
  unfold lex_compare; cbn [fst snd].
  destruct (Z.compare_spec a1 b1), (Z.compare_spec b1 c1), (Z.compare_spec a1 c1);
    try lia; try congruence;
  destruct (Z.compare_spec a2 b2), (Z.compare_spec b2 c2), (Z.compare_spec a2 c2);
    try lia; try congruence;
  destruct (Z.compare_spec a3 b3), (Z.compare_spec b3 c3), (Z.compare_spec a3 c3);
    try lia; try congruence.
Qed.

Lemma is_nan_spec x : is_nan x = true ↔ Prim2SF x = S754_nan.
Proof.
  unfold is_nan. rewrite FloatAxioms.eqb_spec. unfold SFeqb.
  assert (Prim2SF x = S754_nan ∨ Prim2SF x ≠ S754_nan) as [E|E]
    by (destruct (Prim2SF x); (by left) || (by right)).
  - rewrite E. cbn. done.
  - rewrite SFcompare_rank, lex_compare_refl by done. cbn. split; [done|]. intros; done.
Qed.

Lemma not_nan_spec x : is_nan x = false ↔ Prim2SF x ≠ S754_nan.
Proof.
  rewrite <- not_true_iff_false. by rewrite is_nan_spec.
Qed.

Lemma is_nan_eq x : is_nan x = true → x = nan.
Proof.
  intros H%is_nan_spec. apply Prim2SF_inj. by rewrite H.
Qed.

Lemma compare_nan_l x y : is_nan x = true → SFcompare (Prim2SF x) (Prim2SF y) = None.
Proof. intros H%is_nan_spec. by rewrite H. Qed.

Lemma compare_nan_r x y : is_nan y = true → SFcompare (Prim2SF x) (Prim2SF y) = None.
Proof. intros H%is_nan_spec. rewrite H. by destruct (Prim2SF x). Qed.

Lemma compare_not_nan x y :
  is_nan x = false → is_nan y = false →
  SFcompare (Prim2SF x) (Prim2SF y) = Some (lex_compare (rank_of x) (rank_of y)).
Proof. intros Hx%not_nan_spec Hy%not_nan_spec. by apply SFcompare_rank. Qed.

(** The three comparisons, for operands that are not [NaN]. *)
Lemma leb_rank x y :
  is_nan x = false → is_nan y = false → (x <=? y)%float = true ↔ rank_le x y.
Proof.
  intros Hx Hy. rewrite FloatAxioms.leb_spec. unfold SFleb, rank_le.
  rewrite compare_not_nan by done.
  by destruct (lex_compare (rank_of x) (rank_of y)).
Qed.

Lemma ltb_rank x y :
  is_nan x = false → is_nan y = false →
  (x <? y)%float = true ↔ lex_compare (rank_of x) (rank_of y) = Lt.
Proof.
  intros Hx Hy. rewrite FloatAxioms.ltb_spec. unfold SFltb.
  rewrite compare_not_nan by done.
  by destruct (lex_compare (rank_of x) (rank_of y)).
Qed.

Lemma eqb_rank x y :
  is_nan x = false → is_nan y = false →
  (x =? y)%float = true ↔ lex_compare (rank_of x) (rank_of y) = Eq.
Proof.
  intros Hx Hy. rewrite FloatAxioms.eqb_spec. unfold SFeqb.
  rewrite compare_not_nan by done.
  by destruct (lex_compare (rank_of x) (rank_of y)).
Qed.

(** Comparisons with [NaN] are all false. *)
Lemma leb_nan_l x y : is_nan x = true → (x <=? y)%float = false.
Proof. intros H. rewrite FloatAxioms.leb_spec. unfold SFleb. by rewrite compare_nan_l. Qed.

Lemma eqb_nan_r x y : is_nan y = true → (x =? y)%float = false.
Proof. intros H. rewrite FloatAxioms.eqb_spec. unfold SFeqb. by rewrite compare_nan_r. Qed.

Lemma leb_not_nan x y : (x <=? y)%float = true → is_nan x = false ∧ is_nan y = false.
Proof.
  rewrite FloatAxioms.leb_spec. unfold SFleb. intros H.
  destruct (is_nan x) eqn:Hx; [by rewrite compare_nan_l in H|].
  destruct (is_nan y) eqn:Hy; [by rewrite compare_nan_r in H|]. done.
Qed.

Lemma rank_le_refl x : rank_le x x.
Proof. unfold rank_le. by rewrite lex_compare_refl. Qed.

Lemma rank_le_trans x y z : rank_le x y → rank_le y z → rank_le x z.
Proof. apply lex_compare_le_trans. Qed.

Lemma rank_le_total x y : lex_compare (rank_of x) (rank_of y) ≠ Lt → rank_le y x.
Proof.
  unfold rank_le. rewrite (lex_compare_antisym (rank_of x) (rank_of y)).
  by destruct (lex_compare (rank_of x) (rank_of y)).
Qed.

Lemma rank_lt_le x y : lex_compare (rank_of x) (rank_of y) = Lt → rank_le x y.
Proof. unfold rank_le. by intros ->. Qed.

Lemma rank_eq_iff x y :
  lex_compare (rank_of x) (rank_of y) = Eq ↔ rank_le x y ∧ rank_le y x.
Proof.
  unfold rank_le. rewrite (lex_compare_antisym (rank_of x) (rank_of y)).
  destruct (lex_compare (rank_of x) (rank_of y)); cbn; intuition congruence.
Qed.

(** [-Infinity] is below every number. *)
Lemma rank_le_neg_infinity x : is_nan x = false → rank_le neg_infinity x.
Proof.
  intros Hx%not_nan_spec. unfold rank_le, rank_of.
  change (Prim2SF neg_infinity) with (S754_infinity true).
  destruct (Prim2SF x) as [s|s| |s m e]; try done; by destruct s.
Qed.

Lemma classify_pos_zero x : is_pos_zero x = true → Prim2SF x = S754_zero false.
Proof.
  unfold is_pos_zero. rewrite FloatAxioms.classify_spec. unfold SF64classify, SFclassify.
  destruct (Prim2SF x) as [[]|[]| |[] m e]; try done;
    by destruct (Z.pos (digits2_pos m) =? prec).
Qed.

Lemma classify_neg_zero x : is_neg_zero x = true → Prim2SF x = S754_zero true.
Proof.
  unfold is_neg_zero. rewrite FloatAxioms.classify_spec. unfold SF64classify, SFclassify.
  destruct (Prim2SF x) as [[]|[]| |[] m e]; try done;
    by destruct (Z.pos (digits2_pos m) =? prec).
Qed.

Lemma rank_le_zeros h x : is_neg_zero h = true → is_pos_zero x = true → rank_le h x.
Proof.
  intros Hh%classify_neg_zero Hx%classify_pos_zero.
  unfold rank_le, rank_of. by rewrite Hh, Hx.
Qed.

(** [NaN] absorbs sums and products. *)
Lemma Prim2SF_nan : Prim2SF nan = S754_nan.
Proof. reflexivity. Qed.

Lemma add_nan_l y : (nan + y)%float = nan.
Proof. apply is_nan_eq, is_nan_spec. by rewrite add_spec, Prim2SF_nan. Qed.

Lemma add_nan_r x : (x + nan)%float = nan.
Proof.
  apply is_nan_eq, is_nan_spec. rewrite add_spec, Prim2SF_nan.
  by destruct (Prim2SF x).
Qed.

Lemma mul_nan_l y : (nan * y)%float = nan.
Proof. apply is_nan_eq, is_nan_spec. by rewrite mul_spec, Prim2SF_nan. Qed.

Lemma mul_nan_r x : (x * nan)%float = nan.
Proof.
  apply is_nan_eq, is_nan_spec. rewrite mul_spec, Prim2SF_nan.
  by destruct (Prim2SF x).
Qed.

End FloatFacts.

(** ** [Math.max] and [indexOf] against the first maximum *)
Module ArgmaxFacts.
Import FloatOrder FloatFacts.

Lemma max_from_has_nan h l : Exists (λ y, is_nan y = true) l → max_from h l = nan.
Proof.
  intros Hex. revert h. induction Hex as [y l Hy|y l _ IH]; intros h; cbn [max_from].
  - by rewrite Hy.
  - destruct (is_nan y); [done|]. rewrite !IH. by repeat case_match.
Qed.

(** Without [NaN] the loop returns its start value or an argument, and the
    result dominates both. *)
Lemma max_from_no_nan h l :
  is_nan h = false → Forall (λ y, is_nan y = false) l →
  let m := max_from h l in
  is_nan m = false ∧ rank_le h m ∧ Forall (λ y, rank_le y m) l ∧ (m = h ∨ In m l).
Proof.
  intros Hh Hl. revert h Hh.
  induction Hl as [|y l Hy Hl IH]; intros h Hh; cbn [max_from].
  - split_and!; [done | apply rank_le_refl | constructor | by left].
  - rewrite Hy.
    assert (∀ h', is_nan h' = false → rank_le h h' → rank_le y h' →
              (h' = h ∨ h' = y) →
              let m := max_from h' l in
              is_nan m = false ∧ rank_le h m ∧ Forall (λ y0, rank_le y0 m) (y :: l) ∧
              (m = h ∨ In m (y :: l))) as Hstep.
    { intros h' Hh' Hhh' Hyh' Hsrc. destruct (IH h' Hh') as (Hm & Hle & Hall & Hin).
      split_and!; [done | by eapply rank_le_trans | | ].
      - constructor; [by eapply rank_le_trans | done].
      - destruct Hin as [->|Hin]; [|right; by right].
        destruct Hsrc as [->| ->]; [by left | right; by left]. }
    destruct (is_pos_zero y && is_neg_zero h) eqn:Hz.
    { apply andb_prop in Hz as [Hy0 Hh0].
      apply Hstep; [done | by apply rank_le_zeros | apply rank_le_refl | by right]. }
    destruct (h <? y)%float eqn:Hlt.
    { apply Hstep; [done | | apply rank_le_refl | by right].
      apply rank_lt_le. by apply ltb_rank. }
    apply Hstep; [done | apply rank_le_refl | | by left].
    apply rank_le_total. intros Hc. apply ltb_rank in Hc; [congruence|done..].
Qed.

(** An entry is strictly equal to [Math.max] of the list exactly when it is a
    maximum entry. *)
Lemma eqb_Math_max l x :
  In x l → (x =? Math_max l)%float = Spec.is_maximum l x.
Proof.
  intros Hx. unfold Math_max, Spec.is_maximum.
  destruct (forallb (λ y, negb (is_nan y)) l) eqn:Hnan.
  - rewrite forallb_forall in Hnan.
    assert (Forall (λ y, is_nan y = false) l) as Hl.
    { apply Forall_forall. intros y Hy%list_elem_of_In. apply negb_true_iff. by apply Hnan. }
    destruct (max_from_no_nan neg_infinity l eq_refl Hl) as (Hm & _ & Hall & Hsrc).
    set (m := max_from neg_infinity l) in *.
    rewrite Forall_forall in Hl, Hall.
    assert (is_nan x = false) as Hxn by by apply Hl, list_elem_of_In.
    assert (rank_le x m) as Hxm by by apply Hall, list_elem_of_In.
    apply eq_true_iff_eq. rewrite eqb_rank, rank_eq_iff, forallb_forall by done. split.
    + intros [_ Hmx] y Hy. apply leb_rank; [by apply Hl, list_elem_of_In | done |].
      eapply rank_le_trans; [|exact Hmx]. by apply Hall, list_elem_of_In.
    + intros Hmax. split; [done|].
      destruct Hsrc as [Hs|Hs].
      * rewrite Hs. by apply rank_le_neg_infinity.
      * apply leb_rank; [done..|]. by apply Hmax.
  - assert (Exists (λ y, is_nan y = true) l) as Hex.
    { apply Exists_exists. apply not_true_iff_false in Hnan.
      destruct (existsb is_nan l) eqn:He.
      - apply existsb_exists in He as (y & Hy & Hyn). exists y. split; [by apply list_elem_of_In|done].
      - exfalso. apply Hnan. apply forallb_forall. intros y Hy.
        destruct (is_nan y) eqn:Hyn; [|done].
        assert (existsb is_nan l = true) as He' by (apply existsb_exists; eauto). congruence. }
    rewrite max_from_has_nan by done. rewrite eqb_nan_r by done. symmetry.
    apply Exists_exists in Hex as (y & Hy%list_elem_of_In & Hyn).
    apply not_true_iff_false. rewrite forallb_forall. intros Hall.
    specialize (Hall y Hy). by rewrite leb_nan_l in Hall.
Qed.

Lemma index_from_first_index (p : float → bool) arr x i :
  (∀ y, In y arr → (y =? x)%float = p y) →
  index_from i arr x =
  match Spec.first_index p arr with Some k => i + Z.of_nat k | None => -1 end.
Proof.
  revert i. induction arr as [|y rest IH]; intros i Hp; [done|].
  cbn [index_from Spec.first_index]. rewrite (Hp y) by by left.
  destruct (p y); [lia|].
  rewrite IH by (intros; apply Hp; by right).
  destruct (Spec.first_index p rest); cbn; lia.
Qed.

(** [logits.indexOf(Math.max(...logits))] is the first index of a maximum
    entry, and [-1] when there is none. *)
Lemma indexOf_Math_max l : indexOf l (Math_max l) = token_of (Spec.argmax_first l).
Proof.
  unfold indexOf, Spec.argmax_first.
  rewrite (index_from_first_index (Spec.is_maximum l)) by (intros; by apply eqb_Math_max).
  destruct (Spec.first_index (Spec.is_maximum l) l); cbn; lia.
Qed.

Lemma first_index_bound p l k : Spec.first_index p l = Some k → (k < length l)%nat.
Proof.
  revert k. induction l as [|y rest IH]; intros k; cbn; [done|].
  destruct (p y); [intros [= <-]; lia|].
  destruct (Spec.first_index p rest) as [k'|]; cbn; [|done].
  intros [= <-]. specialize (IH k' eq_refl). lia.
Qed.

Lemma first_index_holds p l k :
  Spec.first_index p l = Some k →
  p (nth k l nan) = true ∧ ∀ j, (j < k)%nat → p (nth j l nan) = false.
Proof.
  revert k. induction l as [|y rest IH]; intros k; cbn [Spec.first_index]; [done|].
  destruct (p y) eqn:Hy.
  - intros [= <-]. split; [done|]. lia.
  - destruct (Spec.first_index p rest) as [k'|]; cbn; [|done].
    intros [= <-]. destruct (IH k' eq_refl) as [Hk Hbefore]. split; [done|].
    intros [|j] Hj; [done|]. apply Hbefore. lia.
Qed.

Lemma first_index_none p l : Spec.first_index p l = None → Forall (λ y, p y = false) l.
Proof.
  induction l as [|y rest IH]; cbn; [constructor|].
  destruct (p y) eqn:Hy; [done|].
  destruct (Spec.first_index p rest); cbn; [done|]. intros _. constructor; auto.
Qed.

(** Some entry is a maximum unless the list is empty or holds a [NaN]. *)
Lemma argmax_first_is_Some l :
  is_Some (Spec.argmax_first l) ↔ l ≠ [] ∧ Forall (λ y, is_nan y = false) l.
Proof.
  split.
  - intros [k Hk]. unfold Spec.argmax_first in Hk.
    pose proof (first_index_bound _ _ _ Hk) as Hlt.
    destruct (first_index_holds _ _ _ Hk) as [Hmax _].
    split; [destruct l; [cbn in Hlt; lia | done]|].
    unfold Spec.is_maximum in Hmax. rewrite forallb_forall in Hmax.
    apply Forall_forall. intros y Hy%list_elem_of_In.
    by destruct (leb_not_nan _ _ (Hmax y Hy)).
  - intros [Hne Hl]. destruct (Spec.argmax_first l) as [k|] eqn:Hk; [done|exfalso].
    apply first_index_none in Hk.
    destruct (max_from_no_nan neg_infinity l eq_refl Hl) as (Hm & _ & Hall & Hsrc).
    fold (Math_max l) in *.
    destruct l as [|y0 l']; [done|].
    assert (∃ z, In z (y0 :: l') ∧ (z =? Math_max (y0 :: l'))%float = true) as (z & Hz & Hzm).
    { destruct Hsrc as [Hs|Hin].
      - exists y0. split; [by left|].
        inversion Hl as [|? ? Hy0 _]; subst. inversion Hall as [|? ? Hle _]; subst.
        apply eqb_rank; [done..|]. apply rank_eq_iff. split; [done|].
        rewrite Hs. by apply rank_le_neg_infinity.
      - exists (Math_max (y0 :: l')). split; [done|].
        apply eqb_rank; [done..|]. apply lex_compare_refl. }
    rewrite eqb_Math_max in Hzm by done.
    rewrite Forall_forall in Hk. specialize (Hk z). rewrite Hk in Hzm; [done|].
    by apply list_elem_of_In.
Qed.

End ArgmaxFacts.

(** ** Differences of finite numbers *)
Module FloatSub.
Import FloatOrder FloatFacts.












(** A finite number is a zero or has a mantissa and an exponent. *)
Lemma finite_cases x :
  is_finite x = true →
  (∃ s, Prim2SF x = S754_zero s) ∨ (∃ s m e, Prim2SF x = S754_finite s m e).
Proof.
  unfold is_finite, is_infinity. intros [Hn Hinf]%negb_true_iff%orb_false_iff.
  apply not_nan_spec in Hn. rewrite FloatAxioms.eqb_spec, abs_spec in Hinf.
  destruct (Prim2SF x) as [s|s| |s m e] eqn:E; [left; eauto|done|done|right; eauto].
Qed.

Lemma finite_not_nan x : is_finite x = true → is_nan x = false.
Proof. unfold is_finite. by intros [Hn _]%negb_true_iff%orb_false_iff. Qed.



(** [x - x] is [+0] for every finite [x]. *)
Lemma sub_self x : is_finite x = true → (x - x)%float = 0%float.
Proof.
  intros Hx. apply Prim2SF_inj. rewrite sub_spec.
  change (Prim2SF 0) with (S754_zero false).
  destruct (finite_cases x Hx) as [[s ->]|(s & m & e & ->)].
  - by destruct s.
  - unfold SF64sub, SFsub. rewrite Z.min_id.
    unfold shl_align. rewrite Z.sub_diag. cbn [fst]. done.
Qed.

Lemma sub_nan_r x : (x - nan)%float = nan.
Proof.
  apply is_nan_eq, is_nan_spec. rewrite sub_spec, Prim2SF_nan.
  by destruct (Prim2SF x).
Qed.

(** [Math.max] of finite numbers, at least one, is one of them, and none
    exceeds it. *)
Lemma Math_max_finite v :
  v ≠ [] → Forall (λ x, is_finite x = true) v →
  In (Math_max v) v ∧ is_finite (Math_max v) = true ∧
  Forall (λ x, rank_le x (Math_max v)) v.
Proof.
  intros Hne Hfin.
  assert (Forall (λ y, is_nan y = false) v) as Hnn.
  { eapply Forall_impl; [exact Hfin|]. intros y. apply finite_not_nan. }
  destruct (ArgmaxFacts.max_from_no_nan neg_infinity v eq_refl Hnn) as (_ & _ & Hall & Hsrc).
  fold (Math_max v) in *.
  assert (In (Math_max v) v) as Hin.
  { destruct Hsrc as [Hm|Hin]; [exfalso|done].
    destruct v as [|x v]; [done|].
    apply Forall_cons in Hfin as [Hx _]. apply Forall_cons in Hall as [Hle _].
    rewrite Hm in Hle. unfold rank_le, rank_of, lex_compare in Hle.
    change (Prim2SF neg_infinity) with (S754_infinity true) in Hle.
    destruct (finite_cases x Hx) as [[s E]|(s & m & e & E)]; rewrite E in Hle;
      cbn [rank fst snd] in Hle; [done|by destruct s]. }
  split_and!; [done| |done].
  rewrite Forall_forall in Hfin. by apply Hfin, list_elem_of_In.
Qed.

End FloatSub.

(** ** Sums and quotients of numbers that are not negative *)
Module FloatSum.
Import FloatOrder FloatFacts FloatSub.















End FloatSum.

(** ** The layer loop against the specification's layer *)

Lemma softmax_length Math_exp v : length (Spec.softmax Math_exp v) = length v.
Proof. unfold Spec.softmax. by rewrite !length_map. Qed.

(** [softmax] returns the softmax of a vector that fits in one call, and
    throws on a longer one. *)
Lemma softmax_returns max_arguments Math_exp v :
  (length v ≤ max_arguments)%nat →
  softmax max_arguments Math_exp v = Ok (Spec.softmax Math_exp v).
Proof. intros Hlen. unfold softmax, spread. by rewrite decide_True. Qed.

Lemma softmax_throws max_arguments Math_exp v :
  (max_arguments < length v)%nat →
  softmax max_arguments Math_exp v = Throw RangeError.
Proof. intros Hlen. unfold softmax, spread. rewrite decide_False; [done|lia]. Qed.

(** The softmax of [[MAX_VALUE, -MAX_VALUE]], for any [Math.exp] with the two
    values the language fixes. *)
Lemma softmax_max_value_pair Math_exp :
  Math_exp 0%float = 1%float → Math_exp neg_infinity = 0%float →
  Spec.softmax Math_exp [Host.MAX_VALUE; (- Host.MAX_VALUE)%float] = [1; 0]%float.
Proof.
  intros H0 Hinf. unfold Spec.softmax.
  change (Math_max [Host.MAX_VALUE; (- Host.MAX_VALUE)%float]) with Host.MAX_VALUE.
  cbn [map].
  change (Host.MAX_VALUE - Host.MAX_VALUE)%float with 0%float.
  change (- Host.MAX_VALUE - Host.MAX_VALUE)%float with neg_infinity.
  rewrite H0, Hinf. reflexivity.
Qed.


Lemma spread_returns {A} max_arguments (f : list float → A) args :
  (length args ≤ max_arguments)%nat → spread max_arguments f args = Ok (f args).
Proof. intros Hlen. unfold spread. by rewrite decide_True. Qed.

Lemma spread_throws {A} max_arguments (f : list float → A) args :
  (max_arguments < length args)%nat → spread max_arguments f args = Throw RangeError.
Proof. intros Hlen. unfold spread. rewrite decide_False; [done|lia]. Qed.

Lemma vec_mat_length cols x W : length (Spec.vec_mat cols x W) = cols.
Proof. unfold Spec.vec_mat. by rewrite length_map, length_seq. Qed.

Lemma matMul_row_dense x W k m :
  k ≠ 0%nat → shape k m W → length x = k →
  matMul_row x W = Ok (Spec.vec_mat m x W).
Proof.
  intros Hk HW Hx. unfold matMul_row.
  assert (W ≠ []) as HW0.
  { destruct HW as [HlenW _]. destruct W; [cbn in HlenW; lia|done]. }
  assert (Forall (λ r : vec, length r = k) [x]) as HA by by repeat constructor.
  by rewrite (matMul_dense _ W k m HW0 HW HA).
Qed.

Lemma score_dot q kvk : length kvk = length q → score q kvk = Spec.dot kvk q.
Proof. intros Hlen. unfold score, Spec.dot. by apply index_loop_dot. Qed.

Lemma num_at_vadd_scale acc v p j :
  length acc = length v → (j < length acc)%nat →
  num_at (Spec.vadd acc (Spec.scale v p)) j = (num_at acc j + num_at v j * p)%float.
Proof.
  unfold num_at, Spec.vadd, Spec.scale. revert v j.
  induction acc as [|a acc IH]; intros [|y v] j Hlen Hj; cbn in *; try lia.
  destruct j as [|j]; [done|]. apply IH; lia.
Qed.

Lemma vadd_scale_length acc v p :
  length acc = length v → length (Spec.vadd acc (Spec.scale v p)) = length acc.
Proof.
  intros Hlen. unfold Spec.vadd, Spec.scale.
  rewrite length_zip_with, length_map. lia.
Qed.

Lemma weighted_sum_from acc vals probs d :
  length acc = d → Forall (λ v : vec, length v = d) vals → length probs = length vals →
  fold_left (λ acc pv, Spec.vadd acc (Spec.scale pv.2 pv.1)) (zip probs vals) acc =
  map (λ j, fold_left (λ attn_j i, (attn_j + num_at (row_at vals i) j * num_at probs i)%float)
                      (seq 0 (length vals)) (num_at acc j))
      (seq 0 d).
Proof.
  intros Hacc Hvals. revert acc probs Hacc.
  induction Hvals as [|v vals Hv Hvals IH]; intros acc probs Hacc Hlen.
  - destruct probs; [|done]. cbn [zip zip_with fold_left length seq].
    subst d. clear. unfold num_at.
    apply (list_eq_same_length _ _ (length acc)); [by rewrite length_map, length_seq|done|].
    intros i x y Hi Hx Hy. rewrite list_lookup_fmap, lookup_seq_lt in Hy by done.
    cbn in Hy. rewrite (nth_lookup_Some _ _ _ _ Hx) in Hy. congruence.
  - destruct probs as [|p probs]; [done|]. cbn [zip zip_with fold_left length seq fst snd].
    rewrite IH; [|by rewrite vadd_scale_length; lia|by injection Hlen].
    apply map_seq_ext. intros j Hj. rewrite fold_left_seq_succ.
    rewrite num_at_vadd_scale by lia. done.
Qed.

Lemma attention_cells vals probs :
  attention vals probs =
  map (λ j, fold_left (λ attn_j i, (attn_j + num_at (row_at vals i) j * num_at probs i)%float)
                      (seq 0 (length vals)) 0%float)
      (seq 0 d_model).
Proof.
  unfold attention.
  apply (entry_loops (λ i j, (num_at (row_at vals i) j * num_at probs i)%float)).
Qed.

Lemma attention_weighted_sum vals probs :
  length probs = length vals → Forall (λ v : vec, length v = d_model) vals →
  attention vals probs = Spec.weighted_sum probs vals.
Proof.
  intros Hlen Hvals. rewrite attention_cells. unfold Spec.weighted_sum.
  rewrite (weighted_sum_from _ vals probs d_model); [|by rewrite length_replicate|done..].
  apply map_seq_ext. intros j Hj. f_equal.
  unfold num_at. rewrite nth_lookup, lookup_replicate_2; [done|lia].
Qed.

Lemma entry_wf_lookup c l : cache_wf c → entry_wf (entry c l).
Proof.
  intros Hc. unfold entry. destruct (c !! l) as [e|] eqn:He; [|done].
  by apply (Hc l e).
Qed.

Lemma entry_typed_lookup c l : cache_typed c → entry_typed (entry c l).
Proof.
  intros Hc. unfold entry. destruct (c !! l) as [e|] eqn:He; [|by split].
  by apply (Hc l e).
Qed.

Lemma weights_at_shape Ws l :
  length Ws = n_layers ∧ Forall (shape d_model d_model) Ws → (l < n_layers)%nat →
  shape d_model d_model (weights_at Ws l).
Proof.
  intros [Hlen HWs] Hl. rewrite Forall_forall in HWs. apply HWs.
  apply list_elem_of_In, nth_In. lia.
Qed.

Lemma attention_length vals probs : length (attention vals probs) = d_model.
Proof. rewrite attention_cells. by rewrite length_map, length_seq. Qed.

Section DecoderFacts.
Variable max_arguments : nat.
Variable Math_exp : float → float.
Variable P : params.
Hypothesis HP : params_ok P.

Local Abbreviation spec_layer := (Spec.layer Math_exp P).
Local Abbreviation spec_layers := (Spec.layers Math_exp P).

Lemma d_model_pos : d_model ≠ 0%nat.
Proof. done. Qed.

Local Opaque d_model vocab_size n_layers.

Lemma spec_layer_entry l x e :
  (spec_layer l x e).2 =
  {| keys := keys e ++ [Spec.vec_mat d_model x (weights_at (Wk P) l)];
     values := values e ++ [Spec.vec_mat d_model x (weights_at (Wv P) l)] |}.
Proof. reflexivity. Qed.

Lemma spec_layer_length l x e : length (spec_layer l x e).1 = d_model.
Proof. apply vec_mat_length. Qed.

Lemma spec_layer_wf l x e : entry_wf e → entry_wf (spec_layer l x e).2.
Proof.
  unfold entry_wf. rewrite spec_layer_entry. cbn. rewrite !length_app. cbn. lia.
Qed.

Lemma spec_layer_typed l x e : entry_typed e → entry_typed (spec_layer l x e).2.
Proof.
  intros [Hk Hv]. rewrite spec_layer_entry. split; cbn;
    (apply Forall_app; split; [done|]); repeat constructor; apply vec_mat_length.
Qed.

(** The three products at the head of an iteration, and the entry with the
    new key and value pushed. *)
Lemma layer_step_head l x c :
  (l < n_layers)%nat → length x = d_model →
  let q := Spec.vec_mat d_model x (weights_at (Wq P) l) in
  let k := Spec.vec_mat d_model x (weights_at (Wk P) l) in
  let v := Spec.vec_mat d_model x (weights_at (Wv P) l) in
  let kv1 := {| keys := keys (entry c l) ++ [k]; values := values (entry c l) ++ [v] |} in
  let c1 := if c !! l is Some _ then <[l := kv1]> c else c in
  layer_step max_arguments Math_exp P l x c =
  match softmax max_arguments Math_exp (map (score q) (keys kv1)) with
  | Ok probs =>
      (Ok (Spec.vec_mat d_model (attention (values kv1) probs) (weights_at (Wo P) l)),
       <[l := kv1]> c)
  | Throw e => (Throw e, c1)
  end.
Proof.
  intros Hl Hx. cbv zeta. destruct HP as (HWq & HWk & HWv & HWo & _).
  unfold layer_step, bind, read_entry, lift, write_entry, ret.
  rewrite (matMul_row_dense x _ d_model d_model d_model_pos (weights_at_shape _ l HWq Hl) Hx).
  rewrite (matMul_row_dense x _ d_model d_model d_model_pos (weights_at_shape _ l HWk Hl) Hx).
  rewrite (matMul_row_dense x _ d_model d_model d_model_pos (weights_at_shape _ l HWv Hl) Hx).
  fold (entry c l). cbn [keys values].
  destruct (softmax max_arguments Math_exp _) as [probs|e].
  - rewrite (matMul_row_dense _ _ d_model d_model d_model_pos (weights_at_shape _ l HWo Hl))
      by apply attention_length.
    destruct (c !! l); cbv beta iota; [by rewrite insert_insert_eq | done].
  - by destruct (c !! l).
Qed.

(** One iteration of the layer loop computes the specification's layer on the
    entry of that layer and stores the grown entry, when the scores fit in
    one call. *)
Lemma layer_step_spec l x c :
  (l < n_layers)%nat → length x = d_model →
  entry_wf (entry c l) → entry_typed (entry c l) →
  (length (keys (entry c l)) < max_arguments)%nat →
  layer_step max_arguments Math_exp P l x c =
  (Ok (spec_layer l x (entry c l)).1, <[l := (spec_layer l x (entry c l)).2]> c).
Proof.
  intros Hl Hx Hwf [Hkeys Hvals] Hfit.
  rewrite layer_step_head by done. cbv zeta. cbn [keys values].
  set (q := Spec.vec_mat d_model x (weights_at (Wq P) l)).
  set (k := Spec.vec_mat d_model x (weights_at (Wk P) l)).
  set (v := Spec.vec_mat d_model x (weights_at (Wv P) l)).
  set (e := entry c l) in *.
  rewrite softmax_returns by (rewrite length_map, length_app; cbn; lia).
  assert (map (score q) (keys e ++ [k]) = map (λ key, Spec.dot key q) (keys e ++ [k])) as Hscores.
  { apply map_ext_in. intros kvk Hin. apply score_dot.
    unfold q. rewrite vec_mat_length.
    apply in_app_or in Hin as [Hin|[<-|[]]]; [|apply vec_mat_length].
    rewrite Forall_forall in Hkeys. by apply Hkeys, list_elem_of_In. }
  rewrite Hscores. rewrite attention_weighted_sum; [done| |].
  - rewrite softmax_length, length_map, !length_app. cbn. unfold entry_wf in Hwf. lia.
  - apply Forall_app. split; [done|]. constructor; [apply vec_mat_length | constructor].
Qed.

Lemma layer_loop_spec ls x c :
  NoDup ls → Forall (λ l, (l < n_layers)%nat) ls → length x = d_model →
  cache_wf c → cache_typed c →
  (∀ l, l ∈ ls → (length (keys (entry c l)) < max_arguments)%nat) →
  layer_loop max_arguments Math_exp P ls x c =
  (Ok (spec_layers ls x c).1, (spec_layers ls x c).2) ∧
  length (spec_layers ls x c).1 = d_model ∧
  cache_wf (spec_layers ls x c).2 ∧ cache_typed (spec_layers ls x c).2.
Proof.
  intros Hnd. revert x c.
  induction Hnd as [|l ls Hnotin Hnd IH]; intros x c Hls Hx Hwf Hty Hfit; [done|].
  apply Forall_cons in Hls as [Hl Hls].
  cbn [layer_loop Spec.layers]. unfold bind at 1.
  rewrite layer_step_spec
    by (done || by apply entry_wf_lookup || by apply entry_typed_lookup
        || (apply Hfit; by left)).
  apply IH; [done| | | |].
  - apply spec_layer_length.
  - apply map_Forall_insert_2; [|done]. by apply spec_layer_wf, entry_wf_lookup.
  - apply map_Forall_insert_2; [|done]. by apply spec_layer_typed, entry_typed_lookup.
  - intros l' Hl'. unfold entry. rewrite lookup_insert_ne by (intros ->; done).
    apply Hfit. by right.
Qed.

Lemma embedding_valid t :
  valid_token t → embedding P t = Some (row_at (W_embed P) (Z.to_nat t)) ∧
                  length (row_at (W_embed P) (Z.to_nat t)) = d_model.
Proof.
  intros [Hlo Hhi]. destruct HP as (_ & _ & _ & _ & [Hlen Hrows] & _).
  unfold embedding. destruct (Z.ltb_spec t 0) as [|_]; [lia|].
  assert (Z.to_nat t < length (W_embed P))%nat as Hlt by lia.
  destruct (lookup_lt_is_Some_2 _ _ Hlt) as [r Hr].
  unfold row_at. rewrite (nth_lookup_Some _ _ _ _ Hr). split; [done|].
  rewrite Forall_forall in Hrows. apply Hrows. by eapply list_elem_of_lookup_2.
Qed.

Lemma embedding_invalid t : ¬ valid_token t → embedding P t = None.
Proof.
  intros Ht. destruct HP as (_ & _ & _ & _ & [Hlen _] & _).
  unfold embedding. destruct (Z.ltb_spec t 0) as [|Hge]; [done|].
  apply lookup_ge_None_2. unfold valid_token in Ht. lia.
Qed.

Lemma seq_layers : Forall (λ l, (l < n_layers)%nat) (seq 0 n_layers).
Proof. apply Forall_forall. intros l Hl%list_elem_of_In%in_seq. lia. Qed.

Lemma elem_of_seq_layers l : l ∈ seq 0 n_layers ↔ (l < n_layers)%nat.
Proof. rewrite list_elem_of_In, in_seq. lia. Qed.

(** The decoder step on a valid token and a well-formed, well-typed cache with
    room for one more key in every layer. *)
Lemma transformerStep_spec t c :
  (vocab_size ≤ max_arguments)%nat →
  valid_token t → cache_wf c → cache_typed c → cache_fits max_arguments c →
  transformerStep max_arguments Math_exp P t c =
  (Ok (token_of (Spec.step Math_exp P (Z.to_nat t) c).1),
   (Spec.step Math_exp P (Z.to_nat t) c).2).
Proof.
  intros Hvocab Ht Hwf Hty Hfit. destruct (embedding_valid t Ht) as [Hemb Hx0].
  unfold transformerStep, step_logits. rewrite Hemb. unfold bind at 1 2 3.
  destruct (layer_loop_spec (seq 0 n_layers) (row_at (W_embed P) (Z.to_nat t)) c)
    as (Hloop & Hx & _); [apply NoDup_seq|apply seq_layers|done..| |].
  { intros l Hl%elem_of_seq_layers. by apply Hfit. }
  rewrite Hloop. unfold lift, ret.
  destruct HP as (_ & _ & _ & _ & _ & Hout).
  rewrite (matMul_row_dense _ _ d_model vocab_size d_model_pos Hout Hx).
  rewrite spread_returns by by rewrite vec_mat_length.
  by rewrite ArgmaxFacts.indexOf_Math_max.
Qed.

(** *** What a step does to any cache *)

(** An iteration whose scores fit in one call returns, with one pair pushed
    onto the entry. *)
Lemma layer_step_runs l x c :
  (l < n_layers)%nat → length x = d_model →
  (length (keys (entry c l)) < max_arguments)%nat →
  ∃ x' e', layer_step max_arguments Math_exp P l x c = (Ok x', <[l := e']> c) ∧
           length x' = d_model ∧ appended_one (entry c l) e'.
Proof.
  intros Hl Hx Hfit. rewrite layer_step_head by done. cbv zeta. cbn [keys values].
  rewrite softmax_returns by (rewrite length_map, length_app; cbn; lia).
  eexists _, {| keys := _; values := _ |}. split_and!; [done|apply vec_mat_length|].
  eexists _, _. split_and!; [apply vec_mat_length..|done|done].
Qed.

(** An iteration on an entry that has already as many keys as a call takes
    arguments throws in [softmax], after the two pushes: they show in the
    cache when the entry was there, and are lost with a fresh one. *)
Lemma layer_step_overflows l x c :
  (l < n_layers)%nat → length x = d_model →
  (max_arguments ≤ length (keys (entry c l)))%nat →
  ∃ c', layer_step max_arguments Math_exp P l x c = (Throw RangeError, c') ∧
        (∀ l', l' ≠ l → c' !! l' = c !! l') ∧
        ((c !! l = None ∧ c' !! l = None) ∨ appended_one (entry c l) (entry c' l)).
Proof.
  intros Hl Hx Hfull. rewrite layer_step_head by done. cbv zeta. cbn [keys values].
  rewrite softmax_throws by (rewrite length_map, length_app; cbn; lia).
  eexists. split; [done|]. unfold entry. destruct (c !! l) as [e|] eqn:He.
  - split; [intros l' Hne; by rewrite lookup_insert_ne|]. right.
    rewrite lookup_insert_eq. cbn.
    eexists _, _. split_and!; [apply vec_mat_length..|done|done].
  - split; [done|]. by left.
Qed.

Lemma entry_insert c l e : entry (<[l := e]> c) l = e.
Proof. unfold entry. by rewrite lookup_insert_eq. Qed.

Lemma entry_insert_ne c l l' e : l ≠ l' → entry (<[l := e]> c) l' = entry c l'.
Proof. intros Hne. unfold entry. by rewrite lookup_insert_ne. Qed.

Lemma entry_lookup_eq c c' l : c' !! l = c !! l → entry c' l = entry c l.
Proof. unfold entry. by intros ->. Qed.

Lemma layer_loop_runs ls x c :
  NoDup ls → Forall (λ l, (l < n_layers)%nat) ls → length x = d_model →
  (∀ l, l ∈ ls → (length (keys (entry c l)) < max_arguments)%nat) →
  ∃ x' c', layer_loop max_arguments Math_exp P ls x c = (Ok x', c') ∧ length x' = d_model ∧
           (∀ l, l ∈ ls → appended_one (entry c l) (entry c' l)) ∧
           (∀ l, l ∉ ls → c' !! l = c !! l).
Proof.
  intros Hnd. revert x c.
  induction Hnd as [|l ls Hl Hnd IH]; intros x c Hls Hx Hfit.
  - exists x, c. split_and!; [done..| |done]. by intros l Hl%elem_of_nil.
  - apply Forall_cons in Hls as [Hlt Hls].
    destruct (layer_step_runs l x c Hlt Hx) as (x1 & e1 & Hstep & Hx1 & Happ);
      [apply Hfit; by left|].
    destruct (IH x1 (<[l := e1]> c) Hls Hx1) as (x' & c' & Hloop & Hx' & Hin & Hout).
    { intros l' Hl'. rewrite entry_insert_ne by (intros ->; done). apply Hfit. by right. }
    exists x', c'. cbn [layer_loop]. unfold bind at 1. rewrite Hstep.
    split_and!; [done..| |].
    + intros l' [->|Hl']%elem_of_cons.
      * rewrite (entry_lookup_eq _ _ _ (Hout l Hl)). by rewrite entry_insert.
      * rewrite <- (entry_insert_ne c l l' e1) by (intros ->; done). by apply Hin.
    + intros l' Hl'%not_elem_of_cons. destruct Hl' as [Hne Hl'].
      rewrite (Hout l' Hl'). by apply lookup_insert_ne.
Qed.

(** The loop stops with a [RangeError] at the first layer whose entry is
    full: the layers before it have grown by one pair, the layers after it
    are as they were. *)
Lemma layer_loop_overflows before l0 after x c :
  NoDup (before ++ l0 :: after) →
  Forall (λ l, (l < n_layers)%nat) (before ++ l0 :: after) → length x = d_model →
  (∀ l, l ∈ before → (length (keys (entry c l)) < max_arguments)%nat) →
  (max_arguments ≤ length (keys (entry c l0)))%nat →
  ∃ c', layer_loop max_arguments Math_exp P (before ++ l0 :: after) x c =
          (Throw RangeError, c') ∧
        (∀ l, l ∈ before → appended_one (entry c l) (entry c' l)) ∧
        ((c !! l0 = None ∧ c' !! l0 = None) ∨ appended_one (entry c l0) (entry c' l0)) ∧
        (∀ l, l ∉ before → l ≠ l0 → c' !! l = c !! l).
Proof.
  revert x c. induction before as [|l before IH]; intros x c Hnd Hls Hx Hfit Hfull.
  - cbn [app] in *. apply Forall_cons in Hls as [Hlt _].
    destruct (layer_step_overflows l0 x c Hlt Hx Hfull) as (c' & Hstep & Hout & Hat).
    exists c'. cbn [layer_loop]. unfold bind. rewrite Hstep.
    split_and!; [done| |done|].
    + by intros l Hl%elem_of_nil.
    + intros l _ Hne. by apply Hout.
  - cbn [app] in *. apply NoDup_cons in Hnd as [Hnotin Hnd].
    apply Forall_cons in Hls as [Hlt Hls].
    destruct (layer_step_runs l x c Hlt Hx) as (x1 & e1 & Hstep & Hx1 & Happ);
      [apply Hfit; by left|].
    assert (l ≠ l0) as Hne0. { intros ->. apply Hnotin, elem_of_app. right. by left. }
    assert (l ∉ before) as Hnb. { intros Hin. apply Hnotin, elem_of_app. by left. }
    destruct (IH x1 (<[l := e1]> c) Hnd Hls Hx1) as (c' & Hloop & Hin & Hat & Hout).
    { intros l' Hl'. rewrite entry_insert_ne by (intros ->; done). apply Hfit. by right. }
    { by rewrite entry_insert_ne. }
    exists c'. cbn [layer_loop]. unfold bind at 1. rewrite Hstep.
    split_and!; [done| | |].
    + intros l' [->|Hl']%elem_of_cons.
      * rewrite (entry_lookup_eq (<[l := e1]> c) c' l) by by apply Hout.
        by rewrite entry_insert.
      * rewrite <- (entry_insert_ne c l l' e1) by (intros ->; done). by apply Hin.
    + rewrite lookup_insert_ne in Hat by done.
      by rewrite (entry_insert_ne c l l0 e1) in Hat by done.
    + intros l' Hl'%not_elem_of_cons Hne. destruct Hl' as [Hne' Hl'].
      rewrite (Hout l' Hl' Hne). by apply lookup_insert_ne.
Qed.

(** The layers either all have room, or there is a first one that is full. *)
Lemma first_full_layer c (ls : list nat) :
  (∀ l, l ∈ ls → (length (keys (entry c l)) < max_arguments)%nat) ∨
  ∃ before l0 after, ls = before ++ l0 :: after ∧
    (∀ l, l ∈ before → (length (keys (entry c l)) < max_arguments)%nat) ∧
    (max_arguments ≤ length (keys (entry c l0)))%nat.
Proof.
  induction ls as [|l ls IH].
  - left. by intros l Hl%elem_of_nil.
  - destruct (decide (length (keys (entry c l)) < max_arguments)%nat) as [Hfit|Hfull].
    + destruct IH as [Hall|(before & l0 & after & -> & Hbefore & Hfull)].
      * left. intros l' [->|Hl']%elem_of_cons; auto.
      * right. exists (l :: before), l0, after. split_and!; [done| |done].
        intros l' [->|Hl']%elem_of_cons; auto.
    + right. exists [], l, ls. split_and!; [done| |lia]. by intros l' Hl'%elem_of_nil.
Qed.

(** On a valid token and a cache with room the step computes [vocab_size]
    scores and grows every layer's entry by one pair; entries of other keys
    are not touched. *)
Lemma step_logits_runs t c :
  valid_token t → cache_fits max_arguments c →
  ∃ logits c', step_logits max_arguments Math_exp P t c = (Ok logits, c') ∧
               length logits = vocab_size ∧
               (∀ l, (l < n_layers)%nat → appended_one (entry c l) (entry c' l)) ∧
               (∀ l, (n_layers ≤ l)%nat → c' !! l = c !! l).
Proof.
  intros Ht Hfit. destruct (embedding_valid t Ht) as [Hemb Hx0].
  destruct (layer_loop_runs (seq 0 n_layers) (row_at (W_embed P) (Z.to_nat t)) c)
    as (x & c' & Hloop & Hx & Hin & Hout); [apply NoDup_seq|apply seq_layers|done| |].
  { intros l Hl%elem_of_seq_layers. by apply Hfit. }
  destruct HP as (_ & _ & _ & _ & _ & HWout).
  exists (Spec.vec_mat vocab_size x (W_out P)), c'.
  unfold step_logits. rewrite Hemb. unfold bind. rewrite Hloop. unfold lift.
  rewrite (matMul_row_dense _ _ d_model vocab_size d_model_pos HWout Hx).
  split_and!; [done | apply vec_mat_length | |].
  - intros l Hl. by apply Hin, elem_of_seq_layers.
  - intros l Hl. apply Hout. intros Hin'%elem_of_seq_layers. lia.
Qed.

(** On a valid token and a cache with a full layer the step throws a
    [RangeError] there. *)
Lemma step_logits_overflows t c :
  valid_token t → ¬ cache_fits max_arguments c →
  ∃ l0 c', (l0 < n_layers)%nat ∧
    (max_arguments ≤ length (keys (entry c l0)))%nat ∧
    step_logits max_arguments Math_exp P t c = (Throw RangeError, c') ∧
    (∀ l, (l < l0)%nat → appended_one (entry c l) (entry c' l)) ∧
    ((c !! l0 = None ∧ c' !! l0 = None) ∨ appended_one (entry c l0) (entry c' l0)) ∧
    (∀ l, (l0 < l)%nat → c' !! l = c !! l).
Proof.
  intros Ht Hnofit. destruct (embedding_valid t Ht) as [Hemb Hx0].
  destruct (first_full_layer c (seq 0 n_layers))
    as [Hall|(before & l0 & after & Hsplit & Hbefore & Hfull)].
  { exfalso. apply Hnofit. intros l Hl. by apply Hall, elem_of_seq_layers. }
  assert (before = seq 0 l0 ∧ (l0 < n_layers)%nat) as [-> Hl0].
  { assert (seq 0 n_layers !! length before = Some l0) as Hlk.
    { rewrite Hsplit. by apply list_lookup_middle. }
    apply lookup_seq in Hlk as [Hl0 Hlt]. cbn in Hl0. subst l0. split; [|done].
    apply (f_equal (take (length before))) in Hsplit.
    rewrite take_app_length, take_seq, Nat.min_l in Hsplit by lia. done. }
  destruct (layer_loop_overflows (seq 0 l0) l0 after (row_at (W_embed P) (Z.to_nat t)) c)
    as (c' & Hloop & Hin & Hat & Hout);
    [rewrite <- Hsplit; apply NoDup_seq|rewrite <- Hsplit; apply seq_layers|done..|].
  exists l0, c'. unfold step_logits. rewrite Hemb. unfold bind.
  rewrite Hsplit, Hloop. split_and!; [done..| | done |].
  - intros l Hl. apply Hin, list_elem_of_In, in_seq. lia.
  - intros l Hl. apply Hout; [|lia]. intros Hin'%list_elem_of_In%in_seq. lia.
Qed.

(** On anything else the step throws and leaves the cache as it was. *)
Lemma step_logits_throws t c :
  ¬ valid_token t → step_logits max_arguments Math_exp P t c = (Throw TypeError, c).
Proof. intros Ht. unfold step_logits. by rewrite (embedding_invalid t Ht). Qed.

Lemma transformerStep_throws t c :
  ¬ valid_token t → transformerStep max_arguments Math_exp P t c = (Throw TypeError, c).
Proof. intros Ht. unfold transformerStep, bind. by rewrite step_logits_throws. Qed.

Lemma transformerStep_logits t c logits c' :
  step_logits max_arguments Math_exp P t c = (Ok logits, c') →
  (length logits ≤ max_arguments)%nat →
  transformerStep max_arguments Math_exp P t c =
  (Ok (token_of (Spec.argmax_first logits)), c').
Proof.
  intros H Hlen. unfold transformerStep, bind, lift, ret. rewrite H.
  rewrite spread_returns by done. by rewrite ArgmaxFacts.indexOf_Math_max.
Qed.

Lemma transformerStep_logits_overflow t c logits c' :
  step_logits max_arguments Math_exp P t c = (Ok logits, c') →
  (max_arguments < length logits)%nat →
  transformerStep max_arguments Math_exp P t c = (Throw RangeError, c').
Proof.
  intros H Hlen. unfold transformerStep, bind, lift, ret. rewrite H.
  by rewrite spread_throws by done.
Qed.

(** A step that returns was given a token of the vocabulary, found room in
    every layer, and could pass its [vocab_size] scores to one call. *)
Lemma transformerStep_Ok_inv t c tok c' :
  transformerStep max_arguments Math_exp P t c = (Ok tok, c') →
  valid_token t ∧ cache_fits max_arguments c ∧ (vocab_size ≤ max_arguments)%nat.
Proof.
  intros H. destruct (decide (valid_token t)) as [Ht|Hn];
    [|by rewrite transformerStep_throws in H].
  split; [done|].
  assert (cache_fits max_arguments c) as Hfit.
  { destruct (first_full_layer c (seq 0 n_layers)) as [Hall|(before & l0 & after & Hs & _ & Hfull)].
    - intros l Hl. by apply Hall, elem_of_seq_layers.
    - exfalso.
      destruct (step_logits_overflows t c Ht) as (l1 & c1 & _ & _ & Hthrow & _).
      { intros Hfit. specialize (Hfit l0). cut (l0 < n_layers)%nat; [lia|].
        apply elem_of_seq_layers. rewrite Hs. apply elem_of_app. right. by left. }
      unfold transformerStep, bind in H. by rewrite Hthrow in H. }
  split; [done|].
  destruct (step_logits_runs t c Ht Hfit) as (logits & c1 & Hlog & Hlen & _).
  destruct (decide (vocab_size ≤ max_arguments)%nat) as [|Hbig]; [done|exfalso].
  rewrite (transformerStep_logits_overflow t c logits c1 Hlog) in H by lia. done.
Qed.

Lemma transformerStep_Ok_valid t c tok c' :
  transformerStep max_arguments Math_exp P t c = (Ok tok, c') → valid_token t.
Proof. intros H. by destruct (transformerStep_Ok_inv t c tok c' H). Qed.

(** A step that returns [-1] found no maximum entry. *)
Lemma step_minus_one_no_maximum t c :
  (vocab_size ≤ max_arguments)%nat →
  valid_token t → cache_wf c → cache_typed c → cache_fits max_arguments c →
  (transformerStep max_arguments Math_exp P t c).1 = Ok (-1) →
  (Spec.step Math_exp P (Z.to_nat t) c).1 = None.
Proof.
  intros Hvocab Ht Hwf Hty Hfit. rewrite (transformerStep_spec t c Hvocab Ht Hwf Hty Hfit).
  cbn [fst].
  destruct (Spec.step Math_exp P (Z.to_nat t) c).1 as [k|]; [|done].
  cbn. intros [= Hk]. lia.
Qed.

End DecoderFacts.

(** ** A [NaN] in the cache reaches every score *)
Section NaNFacts.
Import FloatFacts.

Lemma fold_left_nan_stays {A} (h : A → float) l :
  fold_left (λ acc a, (acc + h a)%float) l nan = nan.
Proof. induction l as [|a l IH]; [done|]. cbn. by rewrite add_nan_l. Qed.

Lemma fold_left_nan_term {A} (h : A → float) l a0 init :
  In a0 l → h a0 = nan → fold_left (λ acc a, (acc + h a)%float) l init = nan.
Proof.
  revert init. induction l as [|a l IH]; intros init Hin Hnan; [done|]. cbn.
  destruct Hin as [->|Hin]; [|by apply IH].
  rewrite Hnan, add_nan_r. apply fold_left_nan_stays.
Qed.

Lemma dot_nan a b : length a = length b → has_nan a → Spec.dot a b = nan.
Proof.
  intros Hlen Hnan. unfold Spec.dot. generalize 0%float as init. revert b Hlen.
  induction Hnan as [x a Hx|x a _ IH]; intros [|y b] Hlen init; try done; cbn.
  - rewrite (is_nan_eq x Hx), mul_nan_l, add_nan_r.
    apply (fold_left_nan_stays (λ ab : float * float, (ab.1 * ab.2)%float)).
  - apply IH. by injection Hlen.
Qed.

Lemma map_const_seq {A} (x : A) n s : map (λ _, x) (seq s n) = replicate n x.
Proof. revert s. induction n as [|n IH]; intros s; [done|]. cbn. by rewrite IH. Qed.

Lemma vec_mat_nan cols x W :
  length x = length W → has_nan x → Spec.vec_mat cols x W = replicate cols nan.
Proof.
  intros Hlen Hnan. unfold Spec.vec_mat. rewrite <- (map_const_seq nan cols 0).
  apply map_ext. intros j. apply dot_nan; [|done]. by rewrite length_column.
Qed.

Lemma has_nan_replicate n : n ≠ 0%nat → has_nan (replicate n nan).
Proof. destruct n; [done|]. intros _. by left. Qed.

Lemma has_nan_lookup v : has_nan v → ∃ j, (j < length v)%nat ∧ num_at v j = nan.
Proof.
  induction 1 as [y v Hy|y v _ (j & Hj & Hnan)].
  - exists 0%nat. cbn. split; [lia|]. by apply is_nan_eq.
  - exists (S j). cbn. split; [lia|done].
Qed.

Lemma attention_nan vals probs :
  Forall (λ v : vec, length v = d_model) vals → Exists has_nan vals →
  has_nan (attention vals probs).
Proof.
  intros Hty Hnan.
  assert (∃ i j, (i < length vals)%nat ∧ (j < d_model)%nat ∧
                 num_at (row_at vals i) j = nan) as (i & j & Hi & Hj & Hij).
  { clear probs. induction Hnan as [v vals Hv|v vals _ IH].
    - apply Forall_cons in Hty as [Hlen _].
      destruct (has_nan_lookup v Hv) as (j & Hj & Hnan).
      exists 0%nat, j. cbn. split_and!; [lia|lia|done].
    - apply Forall_cons in Hty as [_ Hty].
      destruct (IH Hty) as (i & j & Hi & Hj & Hij).
      exists (S i), j. cbn. split_and!; [lia|done|done]. }
  rewrite attention_cells. unfold has_nan. apply Exists_exists.
  eexists. split.
  - apply list_elem_of_In, in_map_iff. exists j. split; [reflexivity|]. apply in_seq. lia.
  - rewrite (fold_left_nan_term
               (λ i0, (num_at (row_at vals i0) j * num_at probs i0)%float) _ i).
    + reflexivity.
    + apply in_seq. lia.
    + by rewrite Hij, mul_nan_l.
Qed.

Variable max_arguments : nat.
Variable Math_exp : float → float.
Variable P : params.
Hypothesis HP : params_ok P.

Lemma shape_length k m W : shape k m W → length W = k.
Proof. by intros [? _]. Qed.

Lemma num_at_replicate_nan n j : num_at (replicate n nan) j = nan.
Proof.
  unfold num_at. destruct (decide (j < n)%nat) as [Hj|Hj].
  - rewrite nth_lookup, lookup_replicate_2; done.
  - apply nth_overflow. rewrite length_replicate. lia.
Qed.

(** One cached value whose products are all [NaN] makes every entry of the
    attention sum [NaN]. *)
Lemma attention_all_nan vals probs i :
  (i < length vals)%nat →
  (∀ j, (num_at (row_at vals i) j * num_at probs i)%float = nan) →
  attention vals probs = replicate d_model nan.
Proof.
  intros Hi Hterm. rewrite attention_cells, <- (map_const_seq nan d_model 0).
  apply map_ext. intros j.
  apply (fold_left_nan_term
           (λ i0, (num_at (row_at vals i0) j * num_at probs i0)%float) _ i);
    [apply in_seq; lia | apply Hterm].
Qed.

(** What spoils the attention of a layer: more cached values than keys, so
    that a value has no probability; a [NaN] in a cached value; a cached
    value made of [NaN]s. *)
Lemma spoiled_attention (ks vals : list vec) (probs : vec) :
  length probs = length ks →
  (length ks < length vals)%nat ∨
    (Forall (λ v : vec, length v = d_model) vals ∧ Exists has_nan vals) ∨
    (∃ i, (i < length vals)%nat ∧ row_at vals i = replicate d_model nan) →
  has_nan (attention vals probs).
Proof.
  intros Hlen [Hshort|[[Hty Hnan]|(i & Hi & Hrow)]]; [|by apply attention_nan|].
  - rewrite (attention_all_nan vals probs (length ks)); [by apply has_nan_replicate|done|].
    intros j. unfold num_at at 2. rewrite nth_overflow by lia. apply mul_nan_r.
  - rewrite (attention_all_nan vals probs i); [by apply has_nan_replicate|done|].
    intros j. rewrite Hrow, num_at_replicate_nan. apply mul_nan_l.
Qed.

(** An iteration fed a [NaN], or working on a spoiled entry, outputs
    [NaN]s. *)
Lemma layer_step_nan l x c :
  (l < n_layers)%nat → length x = d_model →
  (length (keys (entry c l)) < max_arguments)%nat →
  has_nan x ∨ (length (keys (entry c l)) < length (values (entry c l)))%nat ∨
    (Forall (λ v : vec, length v = d_model) (values (entry c l)) ∧ holds_nan (entry c l)) →
  ∃ e', layer_step max_arguments Math_exp P l x c =
          (Ok (replicate d_model nan), <[l := e']> c).
Proof.
  intros Hl Hx Hfit Hnan. destruct HP as (_ & _ & HWv & HWo & _).
  pose proof (shape_length _ _ _ (weights_at_shape _ l HWv Hl)) as HlenWv.
  pose proof (shape_length _ _ _ (weights_at_shape _ l HWo Hl)) as HlenWo.
  rewrite (layer_step_head max_arguments Math_exp P HP) by done. cbv zeta. cbn [keys values].
  rewrite softmax_returns by (rewrite length_map, length_app; cbn; lia).
  eexists. f_equal. f_equal.
  apply vec_mat_nan; [by rewrite attention_length|].
  set (v := Spec.vec_mat d_model x (weights_at (Wv P) l)).
  set (ks := keys (entry c l) ++ _).
  apply (spoiled_attention ks); [by rewrite softmax_length, length_map|].
  unfold ks. rewrite !length_app. cbn [length].
  destruct Hnan as [Hxn|[Hshort|[Hty Hex]]].
  - right. right. exists (length (values (entry c l))). split; [lia|].
    unfold row_at. rewrite nth_middle. apply vec_mat_nan; [lia|done].
  - left. lia.
  - right. left. split.
    + apply Forall_app. split; [done|]. constructor; [apply vec_mat_length|constructor].
    + apply Exists_app. by left.
Qed.

(** Once an iteration has output [NaN]s, so do the following ones. *)
Lemma layer_loop_nan ls x c x' c' :
  NoDup ls → Forall (λ l, (l < n_layers)%nat) ls → length x = d_model →
  (∀ l, l ∈ ls → (length (keys (entry c l)) < max_arguments)%nat) →
  has_nan x ∨
    (∃ l, l ∈ ls ∧
       ((length (keys (entry c l)) < length (values (entry c l)))%nat ∨
        (Forall (λ v : vec, length v = d_model) (values (entry c l)) ∧
         holds_nan (entry c l)))) →
  layer_loop max_arguments Math_exp P ls x c = (Ok x', c') → has_nan x'.
Proof.
  intros Hnd. revert x c.
  induction Hnd as [|l ls Hnotin Hnd IH]; intros x c Hls Hx Hfit Hnan.
  - cbn. intros [= <- <-]. destruct Hnan as [|(l & Hl%elem_of_nil & _)]; done.
  - apply Forall_cons in Hls as [Hlt Hls]. cbn [layer_loop]. unfold bind at 1.
    assert (∀ e1, ∀ l', l' ∈ ls →
              (length (keys (entry (<[l := e1]> c) l')) < max_arguments)%nat) as Hfit'.
    { intros e1 l' Hl'. rewrite entry_insert_ne by (intros ->; done). apply Hfit. by right. }
    assert (has_nan x ∨
            (length (keys (entry c l)) < length (values (entry c l)))%nat ∨
            (Forall (λ v : vec, length v = d_model) (values (entry c l)) ∧
             holds_nan (entry c l)) →
            layer_loop max_arguments Math_exp P (l :: ls) x c = (Ok x', c') → has_nan x')
      as Hhere.
    { intros Hbad. cbn [layer_loop]. unfold bind at 1.
      destruct (layer_step_nan l x c Hlt Hx) as [e1 ->]; [apply Hfit; by left|done|].
      apply IH; [done|apply length_replicate|apply Hfit'|].
      left. by apply has_nan_replicate. }
    destruct Hnan as [Hxn|(l0 & [->|Hl0]%elem_of_cons & Hbad)];
      [apply Hhere; by left|apply Hhere; by right|].
    destruct (layer_step_runs max_arguments Math_exp P HP l x c Hlt Hx)
      as (x1 & e1 & -> & Hx1 & _); [apply Hfit; by left|].
    apply IH; [done..|apply Hfit'|].
    right. exists l0. split; [done|].
    rewrite entry_insert_ne; [done|]. by intros ->.
Qed.

(** However the weights and [Math.exp] come out: on a cache with a spoiled
    layer every score is [NaN] and the step returns [-1]. *)
Lemma nan_poisons_step t c l :
  (vocab_size ≤ max_arguments)%nat →
  valid_token t → cache_fits max_arguments c → (l < n_layers)%nat →
  (length (keys (entry c l)) < length (values (entry c l)))%nat ∨
    (Forall (λ v : vec, length v = d_model) (values (entry c l)) ∧ holds_nan (entry c l)) →
  ∃ c', step_logits max_arguments Math_exp P t c = (Ok (replicate vocab_size nan), c') ∧
        transformerStep max_arguments Math_exp P t c = (Ok (-1), c').
Proof.
  intros Hvocab Ht Hfit Hl Hbad.
  destruct (embedding_valid P HP t Ht) as [Hemb Hx0].
  assert (∀ l0, l0 ∈ seq 0 n_layers →
            (length (keys (entry c l0)) < max_arguments)%nat) as Hfit'.
  { intros l0 Hl0%elem_of_seq_layers. by apply Hfit. }
  destruct (layer_loop_runs max_arguments Math_exp P HP (seq 0 n_layers) _ c
              (NoDup_seq _ _) seq_layers Hx0 Hfit') as (x & c' & Hloop & Hx & _).
  assert (has_nan x) as Hnan.
  { apply (layer_loop_nan (seq 0 n_layers) _ c x c' (NoDup_seq _ _) seq_layers Hx0 Hfit');
      [|done].
    right. exists l. split; [by apply elem_of_seq_layers|done]. }
  assert (step_logits max_arguments Math_exp P t c = (Ok (replicate vocab_size nan), c'))
    as Hlogits.
  { unfold step_logits. rewrite Hemb. unfold bind. rewrite Hloop. unfold lift.
    destruct HP as (_ & _ & _ & _ & _ & HWout).
    rewrite (matMul_row_dense _ _ d_model vocab_size d_model_pos HWout Hx).
    by rewrite vec_mat_nan by (by rewrite ?(shape_length _ _ _ HWout)). }
  exists c'. split; [done|].
  rewrite (transformerStep_logits max_arguments Math_exp P t c _ c' Hlogits)
    by by rewrite length_replicate.
  destruct (Spec.argmax_first (replicate vocab_size nan)) as [k|] eqn:Hk; [|done].
  assert (is_Some (Spec.argmax_first (replicate vocab_size nan))) as Hs by by rewrite Hk.
  apply ArgmaxFacts.argmax_first_is_Some in Hs as [_ Hall].
  by inversion Hall.
Qed.

End NaNFacts.

(** ** The cache over a run of steps *)
Section CacheFacts.
Variable max_arguments : nat.
Variable Math_exp : float → float.
Variable P : params.
Hypothesis HP : params_ok P.

Local Abbreviation step := (transformerStep max_arguments Math_exp P).

Lemma cache_wf_entries c : cache_wf c ↔ ∀ l, entry_wf (entry c l).
Proof.
  split; [intros Hc l; by apply entry_wf_lookup|].
  intros Hall l e He. specialize (Hall l). unfold entry in Hall. by rewrite He in Hall.
Qed.

Lemma appended_one_wf e e' : appended_one e e' → entry_wf e → entry_wf e'.
Proof.
  intros (k & v & _ & _ & Hk & Hv). unfold entry_wf. rewrite Hk, Hv, !length_app. cbn. lia.
Qed.

(** The cache a step leaves is the one its layer loop leaves. *)
Lemma transformerStep_cache t c :
  (step t c).2 = (step_logits max_arguments Math_exp P t c).2.
Proof.
  unfold transformerStep, bind, lift, ret.
  destruct (step_logits max_arguments Math_exp P t c) as [[logits|e] c']; [|done].
  by destruct (spread max_arguments Math_max logits).
Qed.

(** A step on a token of the vocabulary, with room in every layer. *)
Lemma transformerStep_runs t c :
  (vocab_size ≤ max_arguments)%nat → valid_token t → cache_fits max_arguments c →
  ∃ tok c', step t c = (Ok tok, c') ∧
            -1 ≤ tok < Z.of_nat vocab_size ∧
            (∀ l, (l < n_layers)%nat → appended_one (entry c l) (entry c' l)) ∧
            (∀ l, (n_layers ≤ l)%nat → c' !! l = c !! l).
Proof.
  intros Hvocab Ht Hfit.
  destruct (step_logits_runs max_arguments Math_exp P HP t c Ht Hfit)
    as (logits & c' & Hlog & Hlen & Hin & Hout).
  eexists _, c'. split; [apply transformerStep_logits; [done|lia]|]. split; [|done].
  destruct (Spec.argmax_first logits) as [k|] eqn:Hk; cbn; [|lia].
  apply ArgmaxFacts.first_index_bound in Hk. lia.
Qed.

(** A step on a token of the vocabulary and a cache with a full layer: it
    throws at the first such layer, after growing it and the layers before
    it. *)
Lemma transformerStep_overflows t c :
  valid_token t → ¬ cache_fits max_arguments c →
  ∃ l0 c', (l0 < n_layers)%nat ∧
    (max_arguments ≤ length (keys (entry c l0)))%nat ∧
    step t c = (Throw RangeError, c') ∧
    (∀ l, (l < l0)%nat → appended_one (entry c l) (entry c' l)) ∧
    ((c !! l0 = None ∧ c' !! l0 = None) ∨ appended_one (entry c l0) (entry c' l0)) ∧
    (∀ l, (l0 < l)%nat → c' !! l = c !! l).
Proof.
  intros Ht Hnofit.
  destruct (step_logits_overflows max_arguments Math_exp P HP t c Ht Hnofit)
    as (l0 & c' & Hl0 & Hfull & Hthrow & Hin & Hat & Hout).
  exists l0, c'. split_and!; [done|done| |done|done|done].
  unfold transformerStep, bind. by rewrite Hthrow.
Qed.

(** A step that throws on a token of the vocabulary throws a [RangeError]. *)
Lemma transformerStep_throw_inv t c e c' :
  valid_token t → step t c = (Throw e, c') → e = RangeError.
Proof.
  intros Ht Hthrow.
  destruct (first_full_layer max_arguments c (seq 0 n_layers))
    as [Hall|(before & l0 & after & Hs & _ & Hfull)].
  - assert (cache_fits max_arguments c) as Hfit.
    { intros l Hl. by apply Hall, elem_of_seq_layers. }
    destruct (step_logits_runs max_arguments Math_exp P HP t c Ht Hfit)
      as (logits & c1 & Hlog & Hlen & _).
    destruct (decide (length logits ≤ max_arguments)%nat) as [Hle|Hgt].
    + rewrite (transformerStep_logits max_arguments Math_exp P t c logits c1 Hlog Hle)
        in Hthrow. done.
    + rewrite (transformerStep_logits_overflow max_arguments Math_exp P t c logits c1 Hlog)
        in Hthrow by lia. congruence.
  - destruct (transformerStep_overflows t c Ht) as (l1 & c1 & _ & _ & Hstep & _).
    { intros Hfit. specialize (Hfit l0). cut (l0 < n_layers)%nat; [lia|].
      apply elem_of_seq_layers. rewrite Hs. apply elem_of_app. right. by left. }
    congruence.
Qed.

(** Whatever the token and the cache, a step leaves every entry as it was or
    with one key and one value pushed. *)
Lemma transformerStep_grows t c l :
  entry (step t c).2 l = entry c l ∨ appended_one (entry c l) (entry (step t c).2 l).
Proof.
  destruct (decide (valid_token t)) as [Ht|Ht];
    [|rewrite (transformerStep_throws max_arguments Math_exp P HP t c Ht); by left].
  rewrite transformerStep_cache.
  destruct (first_full_layer max_arguments c (seq 0 n_layers))
    as [Hall|(before & l0 & after & Hs & _ & Hfull)].
  - assert (cache_fits max_arguments c) as Hfit.
    { intros l' Hl'. by apply Hall, elem_of_seq_layers. }
    destruct (step_logits_runs max_arguments Math_exp P HP t c Ht Hfit)
      as (logits & c1 & -> & _ & Hin & Hout). cbn [snd].
    destruct (decide (l < n_layers)%nat) as [Hl|Hl]; [right; by apply Hin|].
    left. apply entry_lookup_eq, Hout. lia.
  - destruct (step_logits_overflows max_arguments Math_exp P HP t c Ht)
      as (l1 & c1 & _ & _ & -> & Hin & Hat & Hout).
    { intros Hfit. specialize (Hfit l0). cut (l0 < n_layers)%nat; [lia|].
      apply elem_of_seq_layers. rewrite Hs. apply elem_of_app. right. by left. }
    cbn [snd]. destruct (lt_eq_lt_dec l l1) as [[Hlt| ->]|Hgt].
    + right. by apply Hin.
    + destruct Hat as [[Hn Hn']|Happ]; [left|by right]. unfold entry. by rewrite Hn, Hn'.
    + left. apply entry_lookup_eq. by apply Hout.
Qed.

(** Over a run of steps the old keys and values of every entry stay in place
    as a prefix, and what is pushed after them are pairs, at most one a
    step. *)
Lemma run_steps_entry toks c l :
  ∃ ks vs : list vec,
    length ks = length vs ∧ (length ks ≤ length toks)%nat ∧
    keys (entry (run_steps max_arguments Math_exp P toks c) l) = keys (entry c l) ++ ks ∧
    values (entry (run_steps max_arguments Math_exp P toks c) l) = values (entry c l) ++ vs.
Proof.
  revert c. induction toks as [|t toks IH]; intros c.
  - exists [], []. by rewrite !app_nil_r.
  - cbn [run_steps]. destruct (IH (step t c).2) as (ks & vs & Hlen & Hle & Hk & Hv).
    destruct (transformerStep_grows t c l) as [He|(k & v & _ & _ & Hk1 & Hv1)].
    + exists ks, vs. rewrite He in Hk, Hv. cbn [length]. split_and!; [done|lia|done|done].
    + exists (k :: ks), (v :: vs). rewrite Hk, Hv, Hk1, Hv1, <- !app_assoc.
      cbn [length]. split_and!; [lia|lia|done|done].
Qed.

(** With room for the whole run, every step on a token of the vocabulary
    pushes its pair. *)
Lemma run_steps_count toks c l :
  (vocab_size ≤ max_arguments)%nat →
  (∀ l', (l' < n_layers)%nat →
         (length (keys (entry c l')) + length toks ≤ max_arguments)%nat) →
  (l < n_layers)%nat →
  ∃ ks vs : list vec,
    length ks = length (filter valid_token toks) ∧
    length vs = length (filter valid_token toks) ∧
    keys (entry (run_steps max_arguments Math_exp P toks c) l) = keys (entry c l) ++ ks ∧
    values (entry (run_steps max_arguments Math_exp P toks c) l) = values (entry c l) ++ vs.
Proof.
  intros Hvocab Hroom Hl. revert c Hroom. induction toks as [|t toks IH]; intros c Hroom.
  - exists [], []. by rewrite !app_nil_r.
  - cbn [run_steps length] in *. destruct (decide (valid_token t)) as [Ht|Ht].
    + destruct (transformerStep_runs t c Hvocab Ht) as (tok & c' & Hstep & _ & Hin & _).
      { intros l' Hl'. specialize (Hroom l' Hl'). lia. }
      rewrite Hstep. cbn [snd].
      destruct (IH c') as (ks & vs & Hks & Hvs & Hk & Hv).
      { intros l' Hl'. destruct (Hin l' Hl') as (k & v & _ & _ & -> & _).
        rewrite length_app. cbn. specialize (Hroom l' Hl'). lia. }
      destruct (Hin l Hl) as (k & v & _ & _ & Hk1 & Hv1).
      exists (k :: ks), (v :: vs). rewrite filter_cons_True by done.
      rewrite Hk, Hv, Hk1, Hv1, <- !app_assoc. cbn [length]. auto.
    + rewrite (transformerStep_throws max_arguments Math_exp P HP t c Ht). cbn [snd].
      destruct (IH c) as (ks & vs & Hks & Hvs & Hk & Hv).
      { intros l' Hl'. specialize (Hroom l' Hl'). lia. }
      exists ks, vs. by rewrite filter_cons_False.
Qed.

Lemma run_steps_outside toks c l :
  (n_layers ≤ l)%nat → entry (run_steps max_arguments Math_exp P toks c) l = entry c l.
Proof.
  intros Hl. revert c. induction toks as [|t toks IH]; intros c; [done|].
  cbn [run_steps]. rewrite IH. rewrite transformerStep_cache.
  destruct (decide (valid_token t)) as [Ht|Ht];
    [|by rewrite (step_logits_throws max_arguments Math_exp P HP t c Ht)].
  destruct (first_full_layer max_arguments c (seq 0 n_layers))
    as [Hall|(before & l0 & after & Hs & _ & Hfull)].
  - destruct (step_logits_runs max_arguments Math_exp P HP t c Ht)
      as (logits & c1 & -> & _ & _ & Hout).
    { intros l' Hl'. by apply Hall, elem_of_seq_layers. }
    cbn [snd]. by apply entry_lookup_eq, Hout.
  - destruct (step_logits_overflows max_arguments Math_exp P HP t c Ht)
      as (l1 & c1 & Hl1 & _ & -> & _ & _ & Hout).
    { intros Hfit. specialize (Hfit l0). cut (l0 < n_layers)%nat; [lia|].
      apply elem_of_seq_layers. rewrite Hs. apply elem_of_app. right. by left. }
    cbn [snd]. apply entry_lookup_eq, Hout. lia.
Qed.

Lemma run_steps_wf toks c :
  cache_wf c → cache_wf (run_steps max_arguments Math_exp P toks c).
Proof.
  rewrite !cache_wf_entries. intros Hc l. specialize (Hc l).
  destruct (run_steps_entry toks c l) as (ks & vs & Hlen & _ & Hk & Hv).
  unfold entry_wf in *. rewrite Hk, Hv, !length_app. lia.
Qed.

End CacheFacts.

(** ** The generation loop *)
Section GenerationFacts.
Variable max_arguments : nat.
Variable Math_exp : float → float.
Variable P : params.

Local Abbreviation step := (transformerStep max_arguments Math_exp P).

Lemma generate_loop_generates n t acc c out c' :
  generate_loop max_arguments Math_exp P n t acc c = (Ok out, c') ↔
  ∃ new, out = acc ++ new ∧ Spec.generates step n t c new c'.
Proof.
  revert t acc c. induction n as [|n IH]; intros t acc c; cbn [generate_loop].
  - unfold ret. split.
    + intros [= <- <-]. exists []. rewrite app_nil_r. split; [done|constructor].
    + intros (new & -> & Hgen). inversion Hgen; subst. by rewrite app_nil_r.
  - unfold bind. destruct (step t c) as [[tok|e] c1] eqn:Hstep.
    + destruct (Z.eqb_spec tok EOS) as [->|Hne].
      * unfold ret. split.
        -- intros [= <- <-]. exists []. rewrite app_nil_r. split; [done|by constructor].
        -- intros (new & -> & Hgen). inversion Hgen; subst; [|congruence].
           rewrite app_nil_r. congruence.
      * rewrite IH. split.
        -- intros (new & -> & Hgen). exists (tok :: new). rewrite <- app_assoc.
           split; [done|]. by econstructor.
        -- intros (new & -> & Hgen). inversion Hgen; subst; [congruence|].
           assert (tok0 = tok ∧ c2 = c1) as [-> ->] by (split; congruence).
           eexists. rewrite <- app_assoc. split; [reflexivity|done].
    + split; [done|]. intros (new & _ & Hgen). inversion Hgen; congruence.
Qed.

Lemma generates_length n t c out c' :
  Spec.generates step n t c out c' → (length out ≤ n)%nat.
Proof. induction 1; cbn; lia. Qed.

Lemma generates_no_EOS n t c out c' :
  Spec.generates step n t c out c' → EOS ∉ out.
Proof.
  induction 1 as [| |n t c tok c1 out c2 Hstep Hne _ IH]; [apply not_elem_of_nil..|].
  apply not_elem_of_cons. split; [congruence|done].
Qed.

Hypothesis HP : params_ok P.

(** A step that returns, returns [-1] or an index of the vocabulary. *)
Lemma transformerStep_Ok_range t c tok c' :
  step t c = (Ok tok, c') → -1 ≤ tok < Z.of_nat vocab_size.
Proof.
  intros Hstep.
  destruct (transformerStep_Ok_inv max_arguments Math_exp P HP t c tok c' Hstep)
    as (Ht & Hfit & Hvocab).
  destruct (transformerStep_runs max_arguments Math_exp P HP t c Hvocab Ht Hfit)
    as (tok' & c1 & Hstep' & Hrange & _).
  congruence.
Qed.

(** Every emitted token was returned by a step; all but the one emitted by the
    last allowed iteration were fed back to a step that accepted them. *)
Lemma generates_tokens n t c out c' :
  Spec.generates step n t c out c' →
  Forall (λ tok, -1 ≤ tok ≤ Z.of_nat vocab_size - 2) out ∧
  Forall valid_token (removelast out) ∧
  ((length out < n)%nat → Forall valid_token out).
Proof.
  induction 1 as [| |n t c tok c1 out c2 Hstep Hne Hgen (IHr & IHv & IHl)].
  - split_and!; constructor.
  - split_and!; constructor.
  - pose proof (transformerStep_Ok_range t c tok c1 Hstep) as Hrange.
    assert (out ≠ [] ∨ (length out < n)%nat → valid_token tok) as Hfed.
    { intros Hcase. inversion Hgen; subst.
      - destruct Hcase as [|Hcase]; [done|cbn in Hcase; lia].
      - by eapply transformerStep_Ok_valid.
      - by eapply transformerStep_Ok_valid. }
    split_and!.
    + constructor; [|done]. unfold EOS in Hne.
      change (Z.of_nat vocab_size) with 100 in *. lia.
    + destruct out as [|tok2 out]; [constructor|].
      change (removelast (tok :: tok2 :: out)) with (tok :: removelast (tok2 :: out)).
      constructor; [|done]. apply Hfed. by left.
    + cbn [length]. intros Hlt. constructor; [apply Hfed; right; lia | apply IHl; lia].
Qed.

(** From a token of the vocabulary the loop can only throw in two ways: a
    step threw a [RangeError], or the step before returned [-1], which the
    embedding table does not have, and the cache is as that step left it. *)
Lemma generate_loop_throws n t acc c e c' :
  valid_token t →
  generate_loop max_arguments Math_exp P n t acc c = (Throw e, c') →
  e = RangeError ∨
  (e = TypeError ∧ ∃ t1 c1, valid_token t1 ∧ step t1 c1 = (Ok (-1), c')).
Proof.
  revert t acc c. induction n as [|n IH]; intros t acc c Ht; cbn [generate_loop]; [done|].
  unfold bind. destruct (step t c) as [[tok|e1] c1] eqn:Hstep.
  - destruct (Z.eqb_spec tok EOS) as [|Hne]; [by unfold ret|].
    destruct (decide (valid_token tok)) as [Htok|Htok]; [by apply IH|].
    pose proof (transformerStep_Ok_range t c tok c1 Hstep) as Hrange.
    assert (tok = -1) as -> by (unfold valid_token in Htok; lia).
    destruct n as [|n]; cbn [generate_loop]; [by unfold ret|].
    unfold bind. rewrite (transformerStep_throws max_arguments Math_exp P HP (-1) c1 Htok).
    intros [= <- <-]. right. split; [done|]. by exists t, c.
  - intros [= <- <-]. left. by eapply transformerStep_throw_inv.
Qed.

(** A run of the loop that returns [out] made [min (|out| + 1) n] steps, and
    each of them pushed one pair onto every layer's entry. *)
Lemma generates_growth n t c out c' l :
  Spec.generates step n t c out c' → (l < n_layers)%nat →
  ∃ ks vs : list vec,
    length ks = Nat.min (S (length out)) n ∧ length vs = Nat.min (S (length out)) n ∧
    keys (entry c' l) = keys (entry c l) ++ ks ∧
    values (entry c' l) = values (entry c l) ++ vs.
Proof.
  intros Hgen Hl.
  assert (∀ t c tok c1, step t c = (Ok tok, c1) →
            ∃ k v, keys (entry c1 l) = keys (entry c l) ++ [k] ∧
                   values (entry c1 l) = values (entry c l) ++ [v]) as Hone.
  { intros t0 c0 tok c1 Hstep.
    destruct (transformerStep_Ok_inv max_arguments Math_exp P HP t0 c0 tok c1 Hstep)
      as (Ht & Hfit & Hvocab).
    destruct (transformerStep_runs max_arguments Math_exp P HP t0 c0 Hvocab Ht Hfit)
      as (tok' & c1' & Hstep' & _ & Hin & _).
    assert (c1' = c1) as -> by congruence.
    destruct (Hin l Hl) as (k & v & _ & _ & Hk & Hv). by exists k, v. }
  induction Hgen as [t c|n t c c1 Hstep|n t c tok c1 out c2 Hstep Hne Hgen IH].
  - exists [], []. by rewrite !app_nil_r.
  - destruct (Hone _ _ _ _ Hstep) as (k & v & Hk & Hv). by exists [k], [v].
  - destruct (Hone _ _ _ _ Hstep) as (k & v & Hk & Hv).
    destruct IH as (ks & vs & Hks & Hvs & Hk' & Hv').
    exists (k :: ks), (v :: vs). rewrite Hk', Hv', Hk, Hv, <- !app_assoc.
    cbn [length]. split_and!; [lia|lia|done|done].
Qed.

End GenerationFacts.

(** ** The weights [randomMatrix] produces *)

Lemma randomMatrix_shape random start rows cols :
  shape rows cols (randomMatrix random start rows cols).
Proof.
  unfold shape, randomMatrix. rewrite length_map, length_seq. split; [done|].
  apply Forall_map, Forall_forall. intros i _. cbn. by rewrite length_map, length_seq.
Qed.

(** Whatever [Math.random] returns, the module-level weights have the shapes
    the decoder relies on. *)
Lemma init_params_ok random : params_ok (init_params random).
Proof.
  unfold params_ok, init_params. cbn [Wq Wk Wv Wo W_embed W_out].
  assert (∀ f, length (map (λ l, randomMatrix random (f l) d_model d_model) (seq 0 n_layers))
               = n_layers ∧
               Forall (shape d_model d_model)
                      (map (λ l, randomMatrix random (f l) d_model d_model) (seq 0 n_layers)))
    as Hfam.
  { intros f. rewrite length_map, length_seq. split; [done|].
    apply Forall_map, Forall_forall. intros l _. apply randomMatrix_shape. }
  split_and!; try apply Hfam; apply randomMatrix_shape.
Qed.


(** ** The database and [putKV] *)
Module PersistFacts.
Import Idb Persist.

(** Distinct layers are stored under distinct keys. *)
Lemma layer_key_inj l l' : layer_key l = layer_key l' → l = l'.
Proof.
  unfold layer_key. intros H%(inj (String.append "layer_")). by apply (inj pretty).
Qed.

Lemma getKV_browser_of d l :
  open_error d = None → store_error d = None → get_error d = None →
  getKV (browser_of d) l = Resolved (default empty_kv (content d !! layer_key l)).
Proof.
  intros Ho Hs Hg. unfold getKV, openDB, browser_of. cbn. by rewrite Ho, Hs, Hg.
Qed.

Lemma putKV_working d l e :
  working d →
  putKV d l e = (Resolved tt, {| content := <[layer_key l := e]> (content d);
                                 open_error := None; store_error := None;
                                 get_error := None; put_error := None |}).
Proof.
  intros (Ho & Hs & Hg & Hp). unfold putKV, openDB, browser_of, store_put. cbn.
  by rewrite Ho, Hs, Hg, Hp.
Qed.

Lemma load_layers_lookup env (f : nat → kv) ls c l :
  (∀ l', getKV env l' = Resolved (f l')) →
  load_layers env ls c !! l = if decide (l ∈ ls) then Some (f l) else c !! l.
Proof.
  intros Hget. revert c. induction ls as [|a ls IH]; intros c; cbn [load_layers].
  - by rewrite decide_False by apply not_elem_of_nil.
  - rewrite Hget, IH. destruct (decide (l ∈ ls)) as [Hin|Hin].
    + rewrite decide_True; [done|by right].
    + destruct (decide (l = a)) as [->|Hne].
      * rewrite lookup_insert_eq, decide_True; [done|by left].
      * rewrite lookup_insert_ne by done.
        rewrite decide_False; [done|]. by intros [?|?]%elem_of_cons.
Qed.

(** What a page load reads from a database whose reads succeed. *)
Lemma reload_entry d l :
  open_error d = None → store_error d = None → get_error d = None →
  entry (load_cache (browser_of d)) l =
  if decide (l < n_layers)%nat then default empty_kv (content d !! layer_key l)
  else empty_kv.
Proof.
  intros Ho Hs Hg. unfold entry, load_cache.
  rewrite (load_layers_lookup _ (λ l', default empty_kv (content d !! layer_key l')))
    by (intros; by apply getKV_browser_of).
  destruct (decide (l < n_layers)%nat) as [Hl|Hl].
  - rewrite decide_True; [done|]. apply list_elem_of_In, in_seq. lia.
  - rewrite decide_False; [done|]. intros Hin%list_elem_of_In%in_seq. lia.
Qed.

(** The callbacks of the pending calls, run in turn on a working database. *)
Lemma settle_content c ps d :
  working d →
  let d' := fold_left (λ d l, (putKV d l (entry c l)).2) ps d in
  working d' ∧
  ∀ l, content d' !! layer_key l =
       if decide (l ∈ ps) then Some (entry c l) else content d !! layer_key l.
Proof.
  cbv zeta. revert d. induction ps as [|a ps IH]; intros d Hd; cbn [fold_left].
  - split; [done|]. intros l. by rewrite decide_False by apply not_elem_of_nil.
  - rewrite putKV_working by done. cbn [snd].
    destruct (IH {| content := <[layer_key a := entry c a]> (content d);
                    open_error := None; store_error := None;
                    get_error := None; put_error := None |})
      as [Hw Hc]; [done|].
    split; [done|]. intros l. rewrite Hc. cbn [content].
    destruct (decide (l ∈ ps)) as [Hin|Hin].
    + rewrite decide_True; [done|by right].
    + destruct (decide (l = a)) as [->|Hne].
      * rewrite lookup_insert_eq, decide_True; [done|by left].
      * rewrite lookup_insert_ne by (intros ?%layer_key_inj; done).
        rewrite decide_False; [done|]. by intros [?|?]%elem_of_cons.
Qed.

Section Simulation.
Variable max_arguments : nat.
Variable Math_exp : float → float.
Variable P : params.

Lemma layer_step_db_eq l x s :
  layer_step_db max_arguments Math_exp P l x s =
  match layer_step max_arguments Math_exp P l x (cache s) with
  | (Ok x', c') => (Ok x', {| cache := c'; pending := pending s ++ [l]; db := db s |})
  | (Throw e, c') => (Throw e, {| cache := c'; pending := pending s; db := db s |})
  end.
Proof.
  unfold layer_step_db, bindD, on_cache, start_putKV, retD.
  by destruct (layer_step max_arguments Math_exp P l x (cache s)) as [[x'|e] c'].
Qed.

(** The layer loop with its writes: the result and the cache are those of the
    loop on the cache alone, the database is not touched, and one call is
    pending for every layer the loop went through. *)
Lemma layer_loop_db_sim ls x s :
  let r := layer_loop_db max_arguments Math_exp P ls x s in
  let r0 := layer_loop max_arguments Math_exp P ls x (cache s) in
  r.1 = r0.1 ∧ cache r.2 = r0.2 ∧ db r.2 = db s ∧
  ∃ issued, pending r.2 = pending s ++ issued ∧ issued `prefix_of` ls ∧
            (∀ x', r.1 = Ok x' → issued = ls).
Proof.
  cbv zeta. revert x s. induction ls as [|l ls IH]; intros x s.
  - cbn. split_and!; [done..|]. exists []. by rewrite app_nil_r.
  - cbn [layer_loop_db layer_loop]. unfold bindD, bind. rewrite layer_step_db_eq.
    destruct (layer_step max_arguments Math_exp P l x (cache s)) as [[x1|e] c1].
    + destruct (IH x1 {| cache := c1; pending := pending s ++ [l]; db := db s |})
        as (Hr & Hc & Hd & issued & Hp & Hpre & Hall).
      cbn [cache pending db] in *. split_and!; [done..|].
      exists (l :: issued). rewrite Hp, <- app_assoc. split_and!; [done| |].
      * by apply prefix_cons.
      * intros x' Hx'. f_equal. by eapply Hall.
    + cbn. split_and!; [done..|]. exists []. rewrite app_nil_r.
      split_and!; [done|apply prefix_nil|done].
Qed.

Lemma transformerStep_db_sim t s :
  let r := transformerStep_db max_arguments Math_exp P t s in
  let r0 := transformerStep max_arguments Math_exp P t (cache s) in
  r.1 = r0.1 ∧ cache r.2 = r0.2 ∧ db r.2 = db s ∧
  ∃ issued, pending r.2 = pending s ++ issued ∧ issued `prefix_of` seq 0 n_layers ∧
            (∀ tok, r.1 = Ok tok → issued = seq 0 n_layers) ∧
            (embedding P t = None → issued = []).
Proof.
  cbv zeta. unfold transformerStep_db, transformerStep, step_logits.
  destruct (embedding P t) as [x0|].
  - unfold bindD, bind.
    destruct (layer_loop_db_sim (seq 0 n_layers) x0 s)
      as (Hr & Hc & Hd & issued & Hp & Hpre & Hall).
    destruct (layer_loop_db max_arguments Math_exp P (seq 0 n_layers) x0 s) as [[x|e] s1];
      destruct (layer_loop max_arguments Math_exp P (seq 0 n_layers) x0 (cache s))
        as [[x'|e'] c1];
      cbn [fst snd] in *; try done.
    + injection Hr as <-. subst c1. unfold on_cache, lift, retD, ret. cbn [fst snd].
      destruct (matMul_row x (W_out P)) as [logits|e]; cbn [fst snd cache pending db].
      * destruct (spread max_arguments Math_max logits) as [max|e];
          cbn [fst snd cache pending db].
        -- split_and!; [done..|]. exists issued. split_and!; [done..| |done].
           intros _ _. by eapply Hall.
        -- split_and!; [done..|]. exists issued. split_and!; done.
      * split_and!; [done..|]. exists issued. split_and!; done.
    + injection Hr as <-. subst c1. split_and!; [done..|]. exists issued. split_and!; done.
  - unfold bind, throw. cbn. split_and!; [done..|]. exists []. rewrite app_nil_r.
    split_and!; [done|apply prefix_nil|done|done].
Qed.

Lemma run_events_cons ev evs s :
  run_events max_arguments Math_exp P (ev :: evs) s =
  run_events max_arguments Math_exp P evs (after_event max_arguments Math_exp P s ev).
Proof. reflexivity. Qed.

(** The callbacks change neither the cache nor the results of the steps. *)
Lemma run_events_cache evs s :
  cache (run_events max_arguments Math_exp P evs s) =
  run_steps max_arguments Math_exp P (tokens_of evs) (cache s).
Proof.
  revert s. induction evs as [|[t|] evs IH]; intros s; [done| |].
  - rewrite run_events_cons, IH. cbn [tokens_of run_steps after_event].
    by destruct (transformerStep_db_sim t s) as (_ & -> & _).
  - rewrite run_events_cons, IH. cbn [tokens_of after_event].
    unfold deliver. by destruct (pending s).
Qed.

Hypothesis HP : params_ok P.
Hypothesis Hvocab : (vocab_size ≤ max_arguments)%nat.

Lemma tracked_page_load d : tracked (page_load d).
Proof. split; [constructor|]. intros l. by right. Qed.

(** A step keeps the invariant, and pushes at most one key onto a layer. *)
Lemma tracked_step t s :
  cache_fits max_arguments (cache s) → tracked s →
  let s' := (transformerStep_db max_arguments Math_exp P t s).2 in
  tracked s' ∧ db s' = db s ∧
  ∀ l, (length (keys (entry (cache s') l)) ≤ S (length (keys (entry (cache s) l))))%nat.
Proof.
  intros Hfit [Hpend Hsync]. cbv zeta.
  destruct (transformerStep_db_sim t s) as (Hr & Hc & Hd & issued & Hp & Hpre & Hok & Hbad).
  unfold tracked. rewrite Hp, Hd, Hc.
  destruct (decide (valid_token t)) as [Ht|Ht].
  - destruct (transformerStep_runs max_arguments Math_exp P HP t (cache s) Hvocab Ht Hfit)
      as (tok & c' & Hstep & _ & Hin & Hout).
    rewrite Hstep in Hr, Hc |- *. cbn [fst snd] in *.
    rewrite (Hok tok Hr). split_and!; [| |done|].
    + apply Forall_app. split; [done|].
      apply Forall_forall. intros l Hl%list_elem_of_In%in_seq. lia.
    + intros l. destruct (decide (l < n_layers)%nat) as [Hl|Hl].
      * left. apply elem_of_app. right. apply list_elem_of_In, in_seq. lia.
      * rewrite (entry_lookup_eq (cache s) c' l) by (apply Hout; lia).
        destruct (Hsync l) as [Hin'|Heq]; [left|by right].
        apply elem_of_app. by left.
    + intros l. destruct (decide (l < n_layers)%nat) as [Hl|Hl].
      * destruct (Hin l Hl) as (k & v & _ & _ & -> & _). rewrite length_app. cbn. lia.
      * rewrite (entry_lookup_eq (cache s) c' l) by (apply Hout; lia). lia.
  - rewrite (Hbad (embedding_invalid P HP t Ht)), app_nil_r.
    rewrite (transformerStep_throws max_arguments Math_exp P HP t (cache s) Ht).
    cbn [snd]. split_and!; [done..|]. intros l. lia.
Qed.

End Simulation.

(** The callback of a pending call keeps the invariant on a working
    database. *)
Lemma tracked_deliver s :
  working (db s) → tracked s →
  working (db (deliver s)) ∧ tracked (deliver s) ∧ cache (deliver s) = cache s.
Proof.
  intros Hw [Hpend Hsync]. unfold deliver.
  destruct (pending s) as [|a rest] eqn:Hps; [by rewrite <- Hps in *|].
  cbn [cache pending db]. rewrite putKV_working by done. cbn [snd].
  apply Forall_cons in Hpend as [Ha Hrest].
  destruct Hw as (Ho & Hs & Hg & Hp).
  split_and!; [done|..|done]. split; [done|]. cbn [cache pending db]. intros l.
  destruct (decide (l ∈ rest)) as [Hin|Hin]; [by left|right].
  rewrite reload_entry by done. cbn [content].
  destruct (decide (l = a)) as [->|Hne].
  - by rewrite decide_True, lookup_insert_eq by done.
  - rewrite lookup_insert_ne by (intros ?%layer_key_inj; done).
    destruct (Hsync l) as [Hin'|Heq].
    + by apply elem_of_cons in Hin' as [?|?].
    + by rewrite <- Heq, reload_entry.
Qed.

Section Events.
Variable max_arguments : nat.
Variable Math_exp : float → float.
Variable P : params.
Hypothesis HP : params_ok P.
Hypothesis Hvocab : (vocab_size ≤ max_arguments)%nat.

(** Steps and callbacks in any order, with room in the cache for the
    steps. *)
Lemma tracked_events evs s :
  working (db s) → tracked s →
  (∀ l, (l < n_layers)%nat →
        (length (keys (entry (cache s) l)) + length (tokens_of evs) ≤ max_arguments)%nat) →
  working (db (run_events max_arguments Math_exp P evs s)) ∧
  tracked (run_events max_arguments Math_exp P evs s).
Proof.
  revert s. induction evs as [|[t|] evs IH]; intros s Hw Htr Hroom; [done| |].
  - rewrite run_events_cons. cbn [after_event].
    cbn [tokens_of length] in Hroom.
    destruct (tracked_step max_arguments Math_exp P HP Hvocab t s) as (Htr' & Hdb & Hgrow);
      [|done|].
    { intros l Hl. specialize (Hroom l Hl). lia. }
    apply IH; [by rewrite Hdb|done|].
    intros l Hl. specialize (Hroom l Hl). specialize (Hgrow l). lia.
  - rewrite run_events_cons. cbn [after_event].
    destruct (tracked_deliver s Hw Htr) as (Hw' & Htr' & Hc).
    apply IH; [done..|]. by rewrite Hc.
Qed.

End Events.

(** With failing [put] requests nothing reaches the store. *)
Lemma putKV_put_fails d l e err : put_error d = Some err → (putKV d l e).2 = d.
Proof.
  intros Hp. unfold putKV, store_put. rewrite Hp.
  destruct (openDB (browser_of d)) as [db|]; [|done]. by destruct (transaction db).
Qed.

Lemma settle_put_fails s err : put_error (db s) = Some err → db (settle s) = db s.
Proof.
  intros Hp. unfold settle. cbn [db]. generalize (cache s). intros c.
  induction (pending s) as [|l ps IH]; [done|].
  cbn [fold_left]. by rewrite (putKV_put_fails _ _ _ err).
Qed.

Lemma run_events_put_fails max_arguments Math_exp P evs s err :
  put_error (db s) = Some err → db (run_events max_arguments Math_exp P evs s) = db s.
Proof.
  revert s. induction evs as [|[t|] evs IH]; intros s Hp; [done| |].
  - rewrite run_events_cons. cbn [after_event].
    destruct (transformerStep_db_sim max_arguments Math_exp P t s) as (_ & _ & Hd & _).
    rewrite IH; [done|]. by rewrite Hd.
  - rewrite run_events_cons. cbn [after_event].
    assert (db (deliver s) = db s) as Hd.
    { unfold deliver. destruct (pending s); [done|]. cbn [db].
      by apply (putKV_put_fails _ _ _ err). }
    rewrite IH; [done|]. by rewrite Hd.
Qed.

(** Once the pending calls have run on a working database, a page load reads
    back every entry of the cache. *)
Lemma settle_reloads s :
  working (db s) → tracked s →
  working (db (settle s)) ∧
  ∀ l, entry (load_cache (browser_of (db (settle s)))) l = entry (cache (settle s)) l.
Proof.
  intros Hw [Hpend Hsync].
  destruct (settle_content (cache s) (pending s) (db s) Hw) as [Hw' Hcontent].
  cbv zeta in Hw', Hcontent. cbn [settle db cache].
  split; [done|]. intros l.
  destruct Hw as (Ho & Hs & Hg & _). destruct Hw' as (Ho' & Hs' & Hg' & Hp').
  rewrite reload_entry by done. rewrite Hcontent.
  destruct (decide (l ∈ pending s)) as [Hin|Hin].
  - rewrite Forall_forall in Hpend. by rewrite decide_True by by apply Hpend.
  - destruct (Hsync l) as [|Heq]; [done|]. by rewrite <- Heq, reload_entry.
Qed.

End PersistFacts.
(** ** The host instance *)

Lemma Host_P_ok : params_ok Host.P.
Proof. apply init_params_ok. Qed.

Lemma Host_vocab_fits : (vocab_size ≤ Host.max_arguments)%nat.
Proof. unfold vocab_size, Host.max_arguments. lia. Qed.

Lemma Host_load_cache : Idb.load_cache Host.one_layer_stored = Host.loaded_cache.
Proof. reflexivity. Qed.

Lemma Host_loaded_cache_wf : cache_wf Host.loaded_cache ∧ cache_typed Host.loaded_cache.
Proof.
  split; (apply map_Forall_insert_2; [|apply map_Forall_insert_2; [|apply map_Forall_empty]]).
  - reflexivity.
  - reflexivity.
  - split; constructor.
  - split; repeat constructor.
Qed.

Lemma Host_nan_cache_wf : cache_wf Host.nan_cache ∧ cache_typed Host.nan_cache.
Proof.
  split; apply map_Forall_singleton; [reflexivity|]. split; repeat constructor.
Qed.

(** A cache with at most two keys in each of its two layers has room. *)
Lemma small_cache_fits c :
  (length (keys (entry c 0)) ≤ 2)%nat → (length (keys (entry c 1)) ≤ 2)%nat →
  cache_fits Host.max_arguments c.
Proof.
  intros H0 H1 l Hl. unfold n_layers in Hl. unfold Host.max_arguments.
  destruct l as [|[|l]]; lia.
Qed.

Lemma Host_empty_fits : cache_fits Host.max_arguments ∅.
Proof. apply small_cache_fits; vm_compute; lia. Qed.

Lemma Host_loaded_cache_fits : cache_fits Host.max_arguments Host.loaded_cache.
Proof. apply small_cache_fits; vm_compute; lia. Qed.

Lemma Host_nan_cache_fits : cache_fits Host.max_arguments Host.nan_cache.
Proof. apply small_cache_fits; vm_compute; lia. Qed.

Lemma Host_skewed_cache_fits : cache_fits Host.max_arguments Host.skewed_cache.
Proof. apply small_cache_fits; vm_compute; lia. Qed.

Lemma Host_short_keys_cache_fits : cache_fits Host.max_arguments Host.short_keys_cache.
Proof. apply small_cache_fits; vm_compute; lia. Qed.

Lemma Host_nan_cache_step :
  (transformerStep Host.max_arguments Host.Math_exp Host.P 5 Host.nan_cache).1 = Ok (-1).
Proof. vm_compute. reflexivity. Qed.

(** Two iterations of the generation loop from token 5 on an empty cache:
    both emit token 71, and each layer ends with two cached pairs. *)
Lemma Host_two_iterations :
  let r := generate_loop Host.max_arguments Host.Math_exp Host.P 2 5 [] ∅ in
  (r.1, map (λ l, (length (keys (entry r.2 l)), length (values (entry r.2 l)))) [0; 1; 2]%nat)
  = (Ok [71; 71], [(2, 2); (2, 2); (0, 0)]%nat).
Proof. vm_compute. reflexivity. Qed.

Lemma Host_ragged_cache_step :
  (transformerStep Host.max_arguments Host.Math_exp Host.P 5 Host.ragged_cache).1 = Ok (-1).
Proof. vm_compute. reflexivity. Qed.

Lemma triple_eq {A B C} (a a' : A) (b b' : B) (c c' : C) :
  (a, b, c) = (a', b', c') → a = a' ∧ b = b' ∧ c = c'.
Proof. by intros [= -> -> ->]. Qed.

Lemma Host_skewed_cache_step :
  let r := transformerStep Host.max_arguments Host.Math_exp Host.P 5 Host.skewed_cache in
  (r.1, length (keys (entry r.2 0)), length (values (entry r.2 0))) = (Ok 71, 3%nat, 2%nat).
Proof. vm_compute. reflexivity. Qed.

Lemma valid_token_5 : valid_token 5.
Proof. unfold valid_token. split; [lia | reflexivity]. Qed.

(** The full cache: equal key/value lengths, [d_model]-vectors, and no room
    in layer 0. *)
Lemma Host_full_cache_entry :
  entry Host.full_cache 0 =
  {| keys := replicate Host.max_arguments (replicate d_model 0%float);
     values := replicate Host.max_arguments (replicate d_model 0%float) |} ∧
  entry Host.full_cache 1 = empty_kv.
Proof.
  unfold entry, Host.full_cache. by rewrite lookup_singleton_eq, lookup_singleton_ne.
Qed.

Lemma Host_full_cache_wf : cache_wf Host.full_cache ∧ cache_typed Host.full_cache.
Proof.
  split; apply map_Forall_singleton.
  - unfold entry_wf. cbn [keys values]. by rewrite !length_replicate.
  - split; cbn [keys values]; apply Forall_replicate; apply length_replicate.
Qed.

Lemma Host_full_cache_full : ¬ cache_fits Host.max_arguments Host.full_cache.
Proof.
  intros Hfit. specialize (Hfit 0%nat ltac:(unfold n_layers; lia)).
  destruct Host_full_cache_entry as [He _]. rewrite He in Hfit. cbn [keys] in Hfit.
  rewrite length_replicate in Hfit. lia.
Qed.

(** The step on the full cache: a [RangeError] in layer 0, whose entry has
    grown by one pair, and layer 1 as it was. *)
Lemma Host_full_cache_step :
  ∃ c', transformerStep Host.max_arguments Host.Math_exp Host.P 5 Host.full_cache =
          (Throw RangeError, c') ∧
        appended_one (entry Host.full_cache 0) (entry c' 0) ∧
        entry c' 1 = entry Host.full_cache 1.
Proof.
  destruct (transformerStep_overflows Host.max_arguments Host.Math_exp Host.P Host_P_ok
              5 Host.full_cache valid_token_5 Host_full_cache_full)
    as (l0 & c' & Hl0 & Hfull & Hstep & _ & Hat & Hout).
  destruct Host_full_cache_entry as [He0 He1].
  assert (l0 = 0%nat) as ->.
  { unfold n_layers in Hl0. destruct l0 as [|[|l0]]; [done| |lia].
    rewrite He1 in Hfull. cbn in Hfull. unfold Host.max_arguments in Hfull. lia. }
  exists c'. split_and!; [done| |].
  - destruct Hat as [[Hnone _]|Happ]; [|done].
    unfold Host.full_cache in Hnone. rewrite lookup_singleton_eq in Hnone.
    discriminate Hnone.
  - apply entry_lookup_eq, Hout. lia.
Qed.

(** * The claims *)

(** C1, as the code has it: on a token of the vocabulary and a cache whose
    entries have equal key/value lengths, hold [d_model]-vectors and have
    fewer keys than a call takes arguments, the decoder step returns without
    throwing, and its result is the specification's: [x] starts as row [t] of
    the embedding; each layer in order multiplies [x] by its query/key/value
    matrices, appends [k] and [v] to its entry, scores every cached key
    against [q], takes the softmax, sums the cached values weighted by it and
    multiplies by the output projection, with nothing else in between; the
    token is the first index of a maximum entry of the final scores. When the
    scores have no maximum entry, which happens exactly when one of them is
    [NaN], the step returns [-1] instead of an index. On a cache with a layer
    that has as many keys as a call takes arguments the step throws a
    [RangeError] instead of returning. *)
Theorem transformerStep_refines_spec max_arguments Math_exp P t c :
  params_ok P → (vocab_size ≤ max_arguments)%nat → valid_token t →
  cache_wf c → cache_typed c →
  let spec := Spec.step Math_exp P (Z.to_nat t) c in
  let logits := (Spec.logits_and_cache Math_exp P (Z.to_nat t) c).1 in
  (cache_fits max_arguments c →
     transformerStep max_arguments Math_exp P t c = (Ok (token_of spec.1), spec.2) ∧
     (is_Some spec.1 ↔ Forall (λ y, is_nan y = false) logits) ∧
     (spec.1 = None → (transformerStep max_arguments Math_exp P t c).1 = Ok (-1))) ∧
  (¬ cache_fits max_arguments c →
     (transformerStep max_arguments Math_exp P t c).1 = Throw RangeError).
Proof.
  intros HP Hvocab Ht Hwf Hty. cbv zeta. split.
  - intros Hfit. split_and!.
    + by apply transformerStep_spec.
    + unfold Spec.step. cbn [fst]. rewrite ArgmaxFacts.argmax_first_is_Some.
      split; [by intros [_ H]|]. intros H. split; [|done].
      unfold Spec.logits_and_cache. cbn [fst]. intros Hnil.
      apply (f_equal length) in Hnil. by rewrite vec_mat_length in Hnil.
    + intros Hnone.
      rewrite (transformerStep_spec max_arguments Math_exp P HP t c Hvocab Ht Hwf Hty Hfit).
      cbn [fst]. by rewrite Hnone.
  - intros Hfull.
    destruct (transformerStep_overflows max_arguments Math_exp P HP t c Ht Hfull)
      as (l0 & c' & _ & _ & -> & _). done.
Qed.

Lemma transformerStep_refines_spec_witness :
  transformerStep Host.max_arguments Host.Math_exp Host.P 5 Host.loaded_cache =
  (Ok (token_of (Spec.step Host.Math_exp Host.P 5 Host.loaded_cache).1),
   (Spec.step Host.Math_exp Host.P 5 Host.loaded_cache).2).
Proof.
  destruct (transformerStep_refines_spec Host.max_arguments Host.Math_exp Host.P 5
              Host.loaded_cache) as [H _].
  - apply init_params_ok.
  - unfold vocab_size, Host.max_arguments. lia.
  - unfold valid_token. split; [lia | reflexivity].
  - apply Host_loaded_cache_wf.
  - apply Host_loaded_cache_wf.
  - apply H. apply Host_loaded_cache_fits.
Defined.

(** The claim C1 fails on the code: on a well-formed cache of [d_model]-vectors
    whose one cached value holds [NaN], every score is [NaN], none is a
    maximum, and the step returns [-1], which is no index of the scores. The
    same happens on a cache of equal key/value lengths whose cached vectors
    are shorter than [d_model]: the attention loop reads past their end. And
    on a well-formed cache of [d_model]-vectors with as many keys in layer 0
    as a call takes arguments, the step returns nothing: it throws. *)
Lemma transformerStep_returns_no_index :
  params_ok Host.P ∧ valid_token 5 ∧
  (cache_wf Host.nan_cache ∧ cache_typed Host.nan_cache ∧
   (transformerStep Host.max_arguments Host.Math_exp Host.P 5 Host.nan_cache).1 = Ok (-1) ∧
   (Spec.step Host.Math_exp Host.P (Z.to_nat 5) Host.nan_cache).1 = None) ∧
  (cache_wf Host.ragged_cache ∧
   (transformerStep Host.max_arguments Host.Math_exp Host.P 5 Host.ragged_cache).1 = Ok (-1)) ∧
  (cache_wf Host.full_cache ∧ cache_typed Host.full_cache ∧
   (transformerStep Host.max_arguments Host.Math_exp Host.P 5 Host.full_cache).1 =
   Throw RangeError).
Proof.
  split_and!; try apply Host_P_ok; try apply valid_token_5;
    try apply Host_nan_cache_wf; try apply Host_full_cache_wf.
  - apply Host_nan_cache_step.
  - apply (step_minus_one_no_maximum Host.max_arguments Host.Math_exp Host.P Host_P_ok
             5 Host.nan_cache);
      [apply Host_vocab_fits | apply valid_token_5 | apply Host_nan_cache_wf..
      | apply Host_nan_cache_fits | apply Host_nan_cache_step].
  - by apply map_Forall_singleton.
  - apply Host_ragged_cache_step.
  - destruct Host_full_cache_step as (c' & -> & _). done.
Qed.

(** C2: the generation loop feeds the current input token to the decoder step
    at each iteration; [EOS] stops it and is not emitted, any other token is
    emitted and becomes the next input; there are at most [maxTokens = 100]
    iterations, so a returned sequence has at most 100 tokens and never holds
    [EOS]. The loop always ends: it returns such a sequence, or it throws, and
    from a token of the vocabulary it can only throw the [RangeError] of a
    step, or the [TypeError] of the step that is fed the [-1] the step before
    it returned. *)
Theorem generateBotResponse_contract max_arguments Math_exp P t rest c :
  (∀ out c', generateBotResponse max_arguments Math_exp P (t :: rest) c = (Ok out, c') ↔
             Spec.generates (transformerStep max_arguments Math_exp P) maxTokens t c out c') ∧
  (∀ out c', generateBotResponse max_arguments Math_exp P (t :: rest) c = (Ok out, c') →
             (length out ≤ 100)%nat ∧ EOS ∉ out) ∧
  (params_ok P → valid_token t →
   ∀ e c', generateBotResponse max_arguments Math_exp P (t :: rest) c = (Throw e, c') →
           e = RangeError ∨
           (e = TypeError ∧
            ∃ t1 c1, valid_token t1 ∧
                     transformerStep max_arguments Math_exp P t1 c1 = (Ok (-1), c'))).
Proof.
  assert (∀ out c',
            generateBotResponse max_arguments Math_exp P (t :: rest) c = (Ok out, c') ↔
            Spec.generates (transformerStep max_arguments Math_exp P) maxTokens t c out c')
    as Hiff.
  { intros out c'. unfold generateBotResponse. rewrite generate_loop_generates.
    split; [by intros (new & -> & H) | intros H; by exists out]. }
  split_and!; [done| |].
  - intros out c' Hgen%Hiff. split.
    + by apply generates_length in Hgen.
    + by apply generates_no_EOS in Hgen.
  - intros HP Ht e c' Hthrow. unfold generateBotResponse in Hthrow.
    by apply (generate_loop_throws max_arguments Math_exp P HP _ _ _ _ _ _ Ht Hthrow).
Qed.

Lemma generateBotResponse_contract_witness :
  match generateBotResponse Host.max_arguments Host.Math_exp Host.P [5] ∅ with
  | (Ok out, _) => (length out ≤ 100)%nat ∧ EOS ∉ out
  | (Throw e, c') =>
      e = RangeError ∨
      (e = TypeError ∧
       ∃ t1 c1, valid_token t1 ∧
                transformerStep Host.max_arguments Host.Math_exp Host.P t1 c1 = (Ok (-1), c'))
  end.
Proof.
  destruct (generateBotResponse_contract Host.max_arguments Host.Math_exp Host.P 5 [] ∅)
    as (_ & Hret & Hthrow).
  destruct (generateBotResponse Host.max_arguments Host.Math_exp Host.P [5] ∅) as [[out|e] c'].
  - exact (Hret out c' eq_refl).
  - exact (Hthrow (init_params_ok Host.Math_random) valid_token_5 e c' eq_refl).
Defined.

(** C3, as the code has it: the key/value lengths of every layer's entry stay
    equal through any run of decoder steps when they were equal at the start,
    in particular from the cache the loader leaves, and nothing is removed or
    reordered: over a run the old keys and values of every entry stay in
    place as a prefix, followed by pairs, at most one a step. A step pushes
    exactly one key and one value onto every layer's entry when it returns,
    which it does on a token of the vocabulary while every layer has fewer
    keys than a call takes arguments; with that much room for the whole run,
    every such step pushes its pair. A step that throws pushes nothing on a
    token outside the vocabulary; on a cache with a full layer it has pushed
    one pair onto the layers before the first full one and onto that one,
    and none onto the layers after it. *)
Theorem kv_cache_append_only max_arguments Math_exp P env toks c :
  params_ok P →
  (∀ t, (vocab_size ≤ max_arguments)%nat → valid_token t → cache_fits max_arguments c →
     ∃ tok c', transformerStep max_arguments Math_exp P t c = (Ok tok, c') ∧
               ∀ l, (l < n_layers)%nat → appended_one (entry c l) (entry c' l)) ∧
  (∀ t, valid_token t → ¬ cache_fits max_arguments c →
     ∃ l0 c', (l0 < n_layers)%nat ∧
       (max_arguments ≤ length (keys (entry c l0)))%nat ∧
       transformerStep max_arguments Math_exp P t c = (Throw RangeError, c') ∧
       (∀ l, (l < l0)%nat → appended_one (entry c l) (entry c' l)) ∧
       ((c !! l0 = None ∧ c' !! l0 = None) ∨ appended_one (entry c l0) (entry c' l0)) ∧
       (∀ l, (l0 < l)%nat → c' !! l = c !! l)) ∧
  (∀ t, ¬ valid_token t →
     transformerStep max_arguments Math_exp P t c = (Throw TypeError, c)) ∧
  (∀ l, ∃ ks vs : list vec,
     length ks = length vs ∧ (length ks ≤ length toks)%nat ∧
     keys (entry (run_steps max_arguments Math_exp P toks c) l) = keys (entry c l) ++ ks ∧
     values (entry (run_steps max_arguments Math_exp P toks c) l) = values (entry c l) ++ vs) ∧
  ((vocab_size ≤ max_arguments)%nat →
   (∀ l, (l < n_layers)%nat →
         (length (keys (entry c l)) + length toks ≤ max_arguments)%nat) →
   ∀ l, (l < n_layers)%nat →
     ∃ ks vs : list vec,
       length ks = length (filter valid_token toks) ∧
       length vs = length (filter valid_token toks) ∧
       keys (entry (run_steps max_arguments Math_exp P toks c) l) = keys (entry c l) ++ ks ∧
       values (entry (run_steps max_arguments Math_exp P toks c) l) =
       values (entry c l) ++ vs) ∧
  (cache_wf c → cache_wf (run_steps max_arguments Math_exp P toks c)) ∧
  (cache_wf (Idb.load_cache env) →
   cache_wf (run_steps max_arguments Math_exp P toks (Idb.load_cache env))).
Proof.
  intros HP. split_and!.
  - intros t Hvocab Ht Hfit.
    destruct (transformerStep_runs max_arguments Math_exp P HP t c Hvocab Ht Hfit)
      as (tok & c' & H & _ & Hin & _).
    by exists tok, c'.
  - intros t Ht Hfull. by apply transformerStep_overflows.
  - intros t Ht. by apply transformerStep_throws.
  - intros l. by apply run_steps_entry.
  - intros Hvocab Hroom l Hl. by apply run_steps_count.
  - by apply run_steps_wf.
  - by apply run_steps_wf.
Qed.

Lemma kv_cache_append_only_witness :
  cache_wf (run_steps Host.max_arguments Host.Math_exp Host.P [5; 7]
                      (Idb.load_cache Host.one_layer_stored)).
Proof.
  destruct (kv_cache_append_only Host.max_arguments Host.Math_exp Host.P
              Host.one_layer_stored [5; 7] ∅) as (_ & _ & _ & _ & _ & _ & H).
  - apply init_params_ok.
  - apply H. apply Host_loaded_cache_wf.
Defined.

(** The claim C3 fails on the code: a decoder step does not always push one
    pair onto every layer's entry. On a cache of equal key/value lengths whose
    layer 0 has as many keys as a call takes arguments, the step on token 5
    pushes one pair onto layer 0, throws in [softmax], and leaves layer 1
    without its pair. *)
Lemma step_can_grow_one_layer_only :
  valid_token 5 ∧ cache_wf Host.full_cache ∧
  ∃ c', transformerStep Host.max_arguments Host.Math_exp Host.P 5 Host.full_cache =
          (Throw RangeError, c') ∧
        length (keys (entry c' 0)) = S (length (keys (entry Host.full_cache 0))) ∧
        length (values (entry c' 0)) = S (length (values (entry Host.full_cache 0))) ∧
        length (keys (entry c' 1)) = length (keys (entry Host.full_cache 1)) ∧
        length (values (entry c' 1)) = length (values (entry Host.full_cache 1)).
Proof.
  split; [apply valid_token_5|]. split; [apply Host_full_cache_wf|].
  destruct Host_full_cache_step as (c' & Hstep & (k & v & _ & _ & Hk & Hv) & H1).
  exists c'. rewrite Hk, Hv, H1, !length_app. cbn [length].
  split_and!; [done|lia|lia|done|done].
Qed.

(** C4, as the code has it: the step has no guard for an entry whose key and
    value lengths differ. On a token of the vocabulary, with room in the
    cache, it still returns, a token id or [-1], and [-1] whenever the values
    outnumber the keys, since a value without a probability makes every
    score [NaN]. It pushes one key and one value onto
    that entry as on any other, so nothing is truncated and the lengths still
    differ afterwards. *)
Theorem malformed_cache_not_guarded max_arguments Math_exp P t c l :
  params_ok P → (vocab_size ≤ max_arguments)%nat → valid_token t →
  cache_fits max_arguments c → (l < n_layers)%nat →
  length (keys (entry c l)) ≠ length (values (entry c l)) →
  ∃ tok c', transformerStep max_arguments Math_exp P t c = (Ok tok, c') ∧
            -1 ≤ tok < Z.of_nat vocab_size ∧
            ((length (keys (entry c l)) < length (values (entry c l)))%nat → tok = -1) ∧
            length (keys (entry c' l)) = S (length (keys (entry c l))) ∧
            length (values (entry c' l)) = S (length (values (entry c l))) ∧
            length (keys (entry c' l)) ≠ length (values (entry c' l)).
Proof.
  intros HP Hvocab Ht Hfit Hl Hne.
  destruct (transformerStep_runs max_arguments Math_exp P HP t c Hvocab Ht Hfit)
    as (tok & c' & H & Hrange & Hin & _).
  destruct (Hin l Hl) as (k & v & _ & _ & Hk & Hv).
  exists tok, c'. rewrite Hk, Hv, !length_app. cbn [length].
  split_and!; [done|lia|lia| |lia..].
  intros Hshort.
  destruct (nan_poisons_step max_arguments Math_exp P HP t c l Hvocab Ht Hfit Hl)
    as (c1 & _ & Hminus); [by left|].
  congruence.
Qed.

Lemma malformed_cache_not_guarded_witness :
  ∃ tok c', transformerStep Host.max_arguments Host.Math_exp Host.P 5 Host.skewed_cache =
              (Ok tok, c') ∧
            length (keys (entry c' 0)) = 3%nat ∧ length (values (entry c' 0)) = 2%nat.
Proof.
  destruct (malformed_cache_not_guarded Host.max_arguments Host.Math_exp Host.P 5
              Host.skewed_cache 0)
    as (tok & c' & H & _ & _ & Hk & Hv & _).
  - apply init_params_ok.
  - unfold vocab_size, Host.max_arguments. lia.
  - unfold valid_token. split; [lia | reflexivity].
  - apply Host_skewed_cache_fits.
  - unfold n_layers. lia.
  - vm_compute. lia.
  - exists tok, c'. split; [exact H|]. split; [exact Hk | exact Hv].
Defined.

(** The claim C4 fails on the code: with two cached keys and one cached value
    in layer 0 the step neither throws nor truncates; it returns token 71 and
    leaves three keys and two values. With one cached key and two cached
    values it returns [-1] and leaves two keys and three values. *)
Lemma skewed_cache_step_goes_through :
  let r := transformerStep Host.max_arguments Host.Math_exp Host.P 5 Host.skewed_cache in
  (length (keys (entry Host.skewed_cache 0)) = 2%nat ∧
   length (values (entry Host.skewed_cache 0)) = 1%nat ∧
   r.1 = Ok 71 ∧
   length (keys (entry r.2 0)) = 3%nat ∧ length (values (entry r.2 0)) = 2%nat) ∧
  (length (keys (entry Host.short_keys_cache 0)) = 1%nat ∧
   length (values (entry Host.short_keys_cache 0)) = 2%nat ∧
   ∃ c', transformerStep Host.max_arguments Host.Math_exp Host.P 5 Host.short_keys_cache =
           (Ok (-1), c') ∧
         length (keys (entry c' 0)) = 2%nat ∧ length (values (entry c' 0)) = 3%nat).
Proof.
  destruct (triple_eq _ _ _ _ _ _ Host_skewed_cache_step) as (Htok & Hkeys & Hvals).
  split; [split_and!; [reflexivity | reflexivity | exact Htok | exact Hkeys | exact Hvals]|].
  split; [reflexivity|]. split; [reflexivity|].
  assert (0 < n_layers)%nat as Hl by (unfold n_layers; lia).
  destruct (nan_poisons_step Host.max_arguments Host.Math_exp Host.P Host_P_ok 5
              Host.short_keys_cache 0 Host_vocab_fits valid_token_5
              Host_short_keys_cache_fits Hl) as (c' & _ & Hstep).
  { left. vm_compute. lia. }
  destruct (transformerStep_runs Host.max_arguments Host.Math_exp Host.P Host_P_ok 5
              Host.short_keys_cache Host_vocab_fits valid_token_5
              Host_short_keys_cache_fits) as (tok & c1 & Hstep1 & _ & Hin & _).
  assert (c1 = c') as -> by congruence.
  destruct (Hin 0%nat Hl) as (k & v & _ & _ & Hk & Hv).
  exists c'. rewrite Hk, Hv. split; [done|]. split; reflexivity.
Qed.

(** C10, as the code has it: on a token of the vocabulary and a cache with
    room in every layer the step computes exactly [vocab_size] scores and
    returns either [-1] or an index below [vocab_size]; it returns an index
    exactly when no score is [NaN], and that index is then a position of a
    maximum score. On a cache with a full layer it returns nothing: it throws
    a [RangeError]. Every token the generation loop returns lies in
    [-1 .. vocab_size-2]; all but the one emitted by the hundredth iteration
    are token ids of the vocabulary. *)
Theorem step_token_range max_arguments Math_exp P t c :
  params_ok P → valid_token t →
  ((vocab_size ≤ max_arguments)%nat → cache_fits max_arguments c →
   ∃ logits tok c',
     step_logits max_arguments Math_exp P t c = (Ok logits, c') ∧
     transformerStep max_arguments Math_exp P t c = (Ok tok, c') ∧
     length logits = vocab_size ∧
     -1 ≤ tok < Z.of_nat vocab_size ∧
     (0 ≤ tok ↔ Forall (λ y, is_nan y = false) logits) ∧
     (0 ≤ tok → Spec.is_maximum logits (nth (Z.to_nat tok) logits nan) = true)) ∧
  (¬ cache_fits max_arguments c →
   ∃ c', transformerStep max_arguments Math_exp P t c = (Throw RangeError, c')) ∧
  (∀ rest out c2,
     generateBotResponse max_arguments Math_exp P (t :: rest) c = (Ok out, c2) →
     Forall (λ tok', -1 ≤ tok' ≤ Z.of_nat vocab_size - 2) out ∧
     Forall valid_token (removelast out) ∧
     ((length out < maxTokens)%nat → Forall valid_token out)).
Proof.
  intros HP Ht. split_and!.
  - intros Hvocab Hfit.
    destruct (step_logits_runs max_arguments Math_exp P HP t c Ht Hfit)
      as (logits & c' & Hlog & Hlen & _).
    assert (length logits ≤ max_arguments)%nat as Hle by lia.
    pose proof (transformerStep_logits max_arguments Math_exp P t c logits c' Hlog Hle)
      as Hstep.
    pose proof (ArgmaxFacts.argmax_first_is_Some logits) as Hsome.
    exists logits, (token_of (Spec.argmax_first logits)), c'.
    split_and!; [done..| | | |].
    + destruct (Spec.argmax_first logits); cbn; lia.
    + destruct (Spec.argmax_first logits) as [k|] eqn:Hk; cbn; [|lia].
      apply ArgmaxFacts.first_index_bound in Hk. lia.
    + destruct (Spec.argmax_first logits) as [k|] eqn:Hk; cbn.
      * split; [intros _|lia]. by apply Hsome.
      * split; [lia|]. intros Hall. destruct Hsome as [_ Hsome].
        destruct Hsome as [? [=]]. split; [|done]. intros ->. discriminate Hlen.
    + destruct (Spec.argmax_first logits) as [k|] eqn:Hk; cbn; [|lia]. intros _.
      rewrite Nat2Z.id. by destruct (ArgmaxFacts.first_index_holds _ _ _ Hk).
  - intros Hfull.
    destruct (transformerStep_overflows max_arguments Math_exp P HP t c Ht Hfull)
      as (l0 & c' & _ & _ & Hstep & _).
    by exists c'.
  - intros rest out c2 Hgen.
    apply (generates_tokens max_arguments Math_exp P HP maxTokens t c out c2).
    unfold generateBotResponse in Hgen. apply generate_loop_generates in Hgen.
    by destruct Hgen as (new & -> & Hgen).
Qed.

Lemma step_token_range_witness :
  ∃ tok c', transformerStep Host.max_arguments Host.Math_exp Host.P 5 ∅ = (Ok tok, c') ∧
            -1 ≤ tok < Z.of_nat vocab_size.
Proof.
  destruct (step_token_range Host.max_arguments Host.Math_exp Host.P 5 ∅) as (Hok & _).
  - apply init_params_ok.
  - unfold valid_token. split; [lia | reflexivity].
  - destruct Hok as (logits & tok & c' & _ & Hstep & _ & Hrange & _).
    + unfold vocab_size, Host.max_arguments. lia.
    + apply Host_empty_fits.
    + exists tok, c'. split; [exact Hstep | exact Hrange].
Defined.

(** The claim C10 fails on the code: the step is not bound to return an index
    of the vocabulary on every well-formed cache. On a cache holding a [NaN]
    value it returns [-1]. *)
Lemma step_token_can_be_minus_one :
  ¬ (∀ t c, valid_token t → cache_wf c →
       ∀ tok c', transformerStep Host.max_arguments Host.Math_exp Host.P t c = (Ok tok, c') →
                 0 ≤ tok < Z.of_nat vocab_size).
Proof.
  intros Hclaim.
  pose proof Host_nan_cache_step as Hstep.
  destruct (transformerStep Host.max_arguments Host.Math_exp Host.P 5 Host.nan_cache)
    as [r c'] eqn:Hrun.
  cbn [fst] in Hstep. subst r.
  specialize (Hclaim 5 Host.nan_cache valid_token_5 (proj1 Host_nan_cache_wf) (-1) c' Hrun).
  lia.
Qed.

Lemma encode_decode_contract_witness :
  Tokenizer.encode [72; 105]%N = [72; 6] ∧ Tokenizer.decode [7] = [72%N].
Proof.
  destruct encode_decode_contract as (_ & _ & Hbmp & _ & Hdec & _). split.
  - rewrite Hbmp; [reflexivity | repeat constructor].
  - rewrite Hdec; [reflexivity | split; [lia | reflexivity] | discriminate].
Defined.




(** * Further properties of the code *)

(** Whatever the weights and [Math.exp]: when a cached value of some layer
    holds a [NaN], that layer's values being [d_model]-vectors, the decoder
    step on a token of the vocabulary and a cache with room returns [-1]. *)
Theorem nan_in_cache_gives_minus_one max_arguments Math_exp P t c l :
  params_ok P → (vocab_size ≤ max_arguments)%nat → valid_token t →
  cache_fits max_arguments c → (l < n_layers)%nat →
  Forall (λ v : vec, length v = d_model) (values (entry c l)) → holds_nan (entry c l) →
  (transformerStep max_arguments Math_exp P t c).1 = Ok (-1).
Proof.
  intros HP Hvocab Ht Hfit Hl Hty Hnan.
  destruct (nan_poisons_step max_arguments Math_exp P HP t c l Hvocab Ht Hfit Hl)
    as (c' & _ & ->); [by right|done].
Qed.

Lemma nan_in_cache_gives_minus_one_witness :
  (transformerStep Host.max_arguments Host.Math_exp Host.P 5 Host.nan_cache).1 = Ok (-1).
Proof.
  apply (nan_in_cache_gives_minus_one Host.max_arguments Host.Math_exp Host.P 5
           Host.nan_cache 0).
  - apply init_params_ok.
  - unfold vocab_size, Host.max_arguments. lia.
  - split; [lia | reflexivity].
  - apply Host_nan_cache_fits.
  - unfold n_layers. lia.
  - repeat constructor.
  - repeat constructor.
Defined.

(** The round trip through the tokenizer changes every string but the empty
    one: the first code unit [u] comes back as [u mod 99 + 65]. *)
Theorem roundtrip_never_identity str :
  str ≠ [] → Tokenizer.decode (Tokenizer.encode str) ≠ str.
Proof. apply TokenizerFacts.decode_encode_differs. Qed.

Lemma roundtrip_never_identity_witness :
  Tokenizer.decode (Tokenizer.encode [104; 105]%N) ≠ [104; 105]%N.
Proof. apply roundtrip_never_identity. discriminate. Defined.

(** An entry of [softmax] can be exactly [0]: with the two values ECMAScript
    fixes for [Math.exp], [exp(0) = 1] and [exp(-Infinity) = 0], the finite
    vector [[MAX_VALUE, -MAX_VALUE]] is mapped to [[1, 0]], because
    [-MAX_VALUE - MAX_VALUE] overflows to [-Infinity]; an engine whose calls
    take fewer than two arguments throws instead. *)
Theorem softmax_can_underflow_to_zero max_arguments Math_exp :
  Math_exp 0%float = 1%float → Math_exp neg_infinity = 0%float →
  softmax max_arguments Math_exp [Host.MAX_VALUE; (- Host.MAX_VALUE)%float] =
  if decide (2 ≤ max_arguments)%nat then Ok [1; 0]%float else Throw RangeError.
Proof.
  intros H0 Hinf. destruct (decide (2 ≤ max_arguments)%nat).
  - rewrite softmax_returns by done. by rewrite (softmax_max_value_pair Math_exp H0 Hinf).
  - rewrite softmax_throws; [done|]. cbn [length]. lia.
Qed.

Lemma softmax_can_underflow_to_zero_witness :
  softmax Host.max_arguments Host.Math_exp [Host.MAX_VALUE; (- Host.MAX_VALUE)%float] =
  Ok [1; 0]%float.
Proof.
  rewrite softmax_can_underflow_to_zero; [|reflexivity..].
  apply decide_True. unfold Host.max_arguments. lia.
Defined.

(** Whatever [Math.random] returns, the weights the module builds with
    [randomMatrix] have the shapes the decoder relies on: [n_layers] square
    matrices of size [d_model] per family, a [vocab_size] x [d_model]
    embedding and a [d_model] x [vocab_size] output projection. *)
Theorem random_weights_have_shapes random : params_ok (init_params random).
Proof. apply init_params_ok. Qed.

(** On an input that is no token of the vocabulary the decoder step throws a
    [TypeError] and leaves the cache untouched; so does the generation loop
    when it is given no user token. *)
Theorem invalid_token_throws max_arguments Math_exp P t c :
  params_ok P → ¬ valid_token t →
  transformerStep max_arguments Math_exp P t c = (Throw TypeError, c) ∧
  generateBotResponse max_arguments Math_exp P [t] c = (Throw TypeError, c) ∧
  generateBotResponse max_arguments Math_exp P [] c = (Throw TypeError, c).
Proof.
  intros HP Ht.
  pose proof (transformerStep_throws max_arguments Math_exp P HP t c Ht) as Hthrow.
  split_and!; [done| |done].
  unfold generateBotResponse. change maxTokens with (S 99). cbn [generate_loop].
  unfold bind. by rewrite Hthrow.
Qed.

Lemma invalid_token_throws_witness :
  transformerStep Host.max_arguments Host.Math_exp Host.P (-1) ∅ = (Throw TypeError, ∅).
Proof.
  apply (invalid_token_throws Host.max_arguments Host.Math_exp Host.P (-1) ∅).
  - apply init_params_ok.
  - intros [? _]. lia.
Defined.


(** ** The cache over a response, and a response on a spoiled cache *)



(** A response that is returned with [n] tokens took [min (n + 1) 100]
    decoder steps, the one that returned [EOS] included, and each of them
    pushed one pair onto every layer: the cache is not reset between
    responses, and the old pairs stay in front. *)
Theorem response_grows_cache max_arguments Math_exp P t rest c out c' l :
  params_ok P →
  generateBotResponse max_arguments Math_exp P (t :: rest) c = (Ok out, c') →
  (l < n_layers)%nat →
  ∃ ks vs : list vec,
    length ks = Nat.min (S (length out)) maxTokens ∧
    length vs = Nat.min (S (length out)) maxTokens ∧
    keys (entry c' l) = keys (entry c l) ++ ks ∧
    values (entry c' l) = values (entry c l) ++ vs.
Proof.
  intros HP Hgen Hl. unfold generateBotResponse in Hgen.
  apply generate_loop_generates in Hgen as (new & -> & Hgen).
  by apply (generates_growth max_arguments Math_exp P HP maxTokens t c new c' l).
Qed.

Lemma response_grows_cache_witness :
  match generateBotResponse Host.max_arguments Host.Math_exp Host.P [5] ∅ with
  | (Ok out, c') =>
      ∃ ks vs : list vec,
        length ks = Nat.min (S (length out)) maxTokens ∧
        length vs = Nat.min (S (length out)) maxTokens ∧
        keys (entry c' 1) = ks ∧ values (entry c' 1) = vs
  | (Throw _, _) => True
  end.
Proof.
  pose proof (response_grows_cache Host.max_arguments Host.Math_exp Host.P 5 [] ∅) as H.
  destruct (generateBotResponse Host.max_arguments Host.Math_exp Host.P [5] ∅)
    as [[out|e] c']; [|exact I].
  apply (H out c' 1%nat); [apply init_params_ok | reflexivity | unfold n_layers; lia].
Defined.



(** ** [softmax] and [matMul] at the edges *)

Lemma fold_left_add_nans n init :
  n ≠ 0%nat → fold_left (λ a b, (a + b)%float) (replicate n nan) init = nan.
Proof.
  intros Hn. apply (fold_left_nan_term (λ b : float, b) _ nan).
  - destruct n; [done|]. by left.
  - done.
Qed.

(** One [NaN] among the scores makes every probability a [NaN]: the maximum
    is [NaN], so is every difference, every exponential and their sum. *)
Theorem softmax_nan_spreads max_arguments Math_exp v :
  Math_exp nan = nan → has_nan v → (length v ≤ max_arguments)%nat →
  softmax max_arguments Math_exp v = Ok (replicate (length v) nan).
Proof.
  intros Hexp Hnan Hlen. rewrite softmax_returns by done. f_equal. unfold Spec.softmax.
  rewrite (ArgmaxFacts.max_from_has_nan neg_infinity v Hnan : Math_max v = nan).
  assert (map (λ x, Math_exp (x - nan)%float) v = replicate (length v) nan) as ->.
  { clear Hnan Hlen. induction v as [|x v IH]; [done|].
    cbn. by rewrite FloatSub.sub_nan_r, Hexp, IH. }
  rewrite fold_left_add_nans by (destruct Hnan; done).
  generalize (length v). intros n. induction n as [|n IH]; [done|]. cbn. by rewrite IH.
Qed.

Lemma softmax_nan_spreads_witness :
  softmax Host.max_arguments Host.Math_exp [1; nan; 2]%float = Ok [nan; nan; nan].
Proof.
  apply (softmax_nan_spreads Host.max_arguments Host.Math_exp [1; nan; 2]%float).
  - reflexivity.
  - right. by left.
  - unfold Host.max_arguments. cbn [length]. lia.
Defined.

(** The softmax of a single finite score is [[1]], whatever the score: the
    first pair of an empty layer gets all the attention. *)
Theorem softmax_singleton max_arguments Math_exp x :
  Math_exp 0%float = 1%float → is_finite x = true → (1 ≤ max_arguments)%nat →
  softmax max_arguments Math_exp [x] = Ok [1%float].
Proof.
  intros Hexp Hx Hlen. rewrite softmax_returns by done. f_equal. unfold Spec.softmax.
  destruct (FloatSub.Math_max_finite [x]) as ([<-|[]] & _ & _); [done|by repeat constructor|].
  cbn [map fold_left]. by rewrite FloatSub.sub_self, Hexp by done.
Qed.

Lemma softmax_singleton_witness :
  softmax Host.max_arguments Host.Math_exp [Host.MAX_VALUE] = Ok [1%float].
Proof.
  apply softmax_singleton; [reflexivity | reflexivity | unfold Host.max_arguments; lia].
Defined.

Lemma matMul_cells A B0 B' :
  matMul A (B0 :: B') =
  Ok (map (λ i, map (λ j, fold_left (λ acc k, (acc + num_at (row_at A i) k *
                                                  num_at (row_at (B0 :: B') k) j)%float)
                                    (seq 0 (length (B0 :: B'))) 0%float)
                    (seq 0 (length B0)))
          (seq 0 (length A))).
Proof.
  unfold matMul. f_equal.
  apply (cell_loops (λ i j k, (num_at (row_at A i) k * num_at (row_at (B0 :: B') k) j)%float)).
Qed.

(** [matMul] does not stop at the end of a row of [A] that is shorter than
    [B] has rows: the read past its end multiplies as [NaN], and every cell
    of that row of the product is [NaN]. *)
Theorem matMul_short_row A B0 B' out i :
  matMul A (B0 :: B') = Ok out → (i < length A)%nat →
  (length (row_at A i) < length (B0 :: B'))%nat →
  row_at out i = replicate (length B0) nan.
Proof.
  rewrite matMul_cells. intros [= <-] Hi Hshort. unfold row_at at 1.
  erewrite nth_lookup_Some; [|by rewrite list_lookup_fmap, lookup_seq_lt].
  rewrite <- (map_const_seq nan (length B0) 0). apply map_ext. intros j.
  apply (fold_left_nan_term
           (λ k, (num_at (row_at A i) k * num_at (row_at (B0 :: B') k) j)%float)
           (seq 0 (length (B0 :: B'))) (length (row_at A i)) 0%float).
  - apply in_seq. lia.
  - unfold num_at at 1. rewrite nth_overflow by lia. apply FloatFacts.mul_nan_l.
Qed.

Lemma matMul_short_row_witness :
  ∃ out, matMul [[1]; [1; 2]]%float [[1; 0]; [0; 1]]%float = Ok out ∧
         row_at out 0 = [nan; nan].
Proof.
  destruct (matMul [[1]; [1; 2]]%float [[1; 0]; [0; 1]]%float) as [out|e] eqn:E;
    [|discriminate E].
  exists out. split; [reflexivity|].
  apply (matMul_short_row [[1]; [1; 2]]%float [1; 0]%float [[0; 1]]%float out 0 E);
    cbn; lia.
Defined.

(** ** The cache across page loads *)

Lemma Host_working_disk_ok : Persist.working Host.working_disk.
Proof. by repeat split. Qed.

Lemma Host_working_disk_load :
  Idb.load_cache (Persist.browser_of Host.working_disk) = Host.loaded_cache.
Proof. reflexivity. Qed.

(** On a database that works, [getKV] reads back what [putKV] stored for a
    layer, and the entries of the other layers are as they were: distinct
    layers have distinct keys. *)
Theorem putKV_then_getKV d l e :
  Persist.working d →
  (Persist.putKV d l e).1 = Idb.Resolved tt ∧
  Idb.getKV (Persist.browser_of (Persist.putKV d l e).2) l = Idb.Resolved e ∧
  ∀ l', l' ≠ l →
    Idb.getKV (Persist.browser_of (Persist.putKV d l e).2) l' =
    Idb.getKV (Persist.browser_of d) l'.
Proof.
  intros Hw. rewrite PersistFacts.putKV_working by done. cbn [fst snd].
  destruct Hw as (Ho & Hs & Hg & Hp).
  split_and!; [done| |].
  - rewrite PersistFacts.getKV_browser_of by done. cbn [Persist.content].
    by rewrite lookup_insert_eq.
  - intros l' Hne. rewrite !PersistFacts.getKV_browser_of by done. cbn [Persist.content].
    rewrite lookup_insert_ne; [done|]. by intros ?%PersistFacts.layer_key_inj.
Qed.

Lemma putKV_then_getKV_witness :
  Idb.getKV (Persist.browser_of (Persist.putKV Host.working_disk 1 Host.stored_entry).2) 1 =
    Idb.Resolved Host.stored_entry ∧
  Idb.getKV (Persist.browser_of (Persist.putKV Host.working_disk 1 Host.stored_entry).2) 0 =
    Idb.Resolved Host.stored_entry.
Proof.
  destruct (putKV_then_getKV Host.working_disk 1 Host.stored_entry Host_working_disk_ok)
    as (_ & Hsame & Hother).
  split; [exact Hsame|]. rewrite Hother by lia. reflexivity.
Defined.

(** The cache survives a page load. After a load on a database that works,
    let decoder steps and [putKV] callbacks follow in any order, with room in
    every layer for the steps; once the callbacks still pending have run, a
    new page load reads back, for every layer, the entry the session had in
    memory: the one the steps built on top of the first load. *)
Theorem reload_restores_cache max_arguments Math_exp P d evs :
  params_ok P → (vocab_size ≤ max_arguments)%nat → Persist.working d →
  (∀ l, (l < n_layers)%nat →
        (length (keys (entry (Idb.load_cache (Persist.browser_of d)) l)) +
         length (Persist.tokens_of evs) ≤ max_arguments)%nat) →
  let s := Persist.settle
             (Persist.run_events max_arguments Math_exp P evs (Persist.page_load d)) in
  Persist.cache s =
    run_steps max_arguments Math_exp P (Persist.tokens_of evs)
              (Idb.load_cache (Persist.browser_of d)) ∧
  Persist.pending s = [] ∧
  ∀ l, entry (Idb.load_cache (Persist.browser_of (Persist.db s))) l =
       entry (Persist.cache s) l.
Proof.
  intros HP Hvocab Hw Hroom s.
  destruct (PersistFacts.tracked_events max_arguments Math_exp P HP Hvocab evs
              (Persist.page_load d) Hw (PersistFacts.tracked_page_load d) Hroom)
    as [Hw' Htr].
  destruct (PersistFacts.settle_reloads _ Hw' Htr) as [_ Hre].
  split_and!; [|done|exact Hre].
  subst s. cbn [Persist.settle Persist.cache].
  by rewrite PersistFacts.run_events_cache.
Qed.

Lemma reload_restores_cache_witness :
  entry (Idb.load_cache
           (Persist.browser_of
              (Persist.db
                 (Persist.settle
                    (Persist.run_events Host.max_arguments Host.Math_exp Host.P
                       [Persist.call_step 5; Persist.run_callback; Persist.call_step 7]
                       (Persist.page_load Host.working_disk)))))) 0 =
  entry (Persist.cache
           (Persist.settle
              (Persist.run_events Host.max_arguments Host.Math_exp Host.P
                 [Persist.call_step 5; Persist.run_callback; Persist.call_step 7]
                 (Persist.page_load Host.working_disk)))) 0.
Proof.
  destruct (reload_restores_cache Host.max_arguments Host.Math_exp Host.P Host.working_disk
              [Persist.call_step 5; Persist.run_callback; Persist.call_step 7])
    as (_ & _ & H).
  - apply init_params_ok.
  - unfold vocab_size, Host.max_arguments. lia.
  - apply Host_working_disk_ok.
  - intros l Hl. rewrite Host_working_disk_load.
    assert (length (keys (entry Host.loaded_cache l)) ≤ 1)%nat as Hlen.
    { unfold n_layers in Hl. destruct l as [|[|l]]; [vm_compute; lia..|lia]. }
    unfold Host.max_arguments. cbn [Persist.tokens_of length]. lia.
  - exact (H 0%nat).
Defined.

(** A write that fails is lost without a trace. On a database that opens
    and has its store but whose [put] requests fail, every [putKV] promise
    resolves all the same, and after any steps and callbacks the store is as
    the first page load found it: the next load starts from the old cache. *)
Theorem failed_writes_are_silent max_arguments Math_exp P d evs err :
  Persist.open_error d = None → Persist.store_error d = None →
  Persist.put_error d = Some err →
  let s := Persist.settle
             (Persist.run_events max_arguments Math_exp P evs (Persist.page_load d)) in
  (∀ l e, Persist.putKV d l e = (Idb.Resolved tt, d)) ∧
  Persist.db s = d ∧
  Idb.load_cache (Persist.browser_of (Persist.db s)) = Idb.load_cache (Persist.browser_of d).
Proof.
  intros Ho Hs Hp s.
  assert (Persist.db s = d) as Hd.
  { subst s. rewrite (PersistFacts.settle_put_fails _ err).
    - by rewrite (PersistFacts.run_events_put_fails _ _ _ _ _ err).
    - by rewrite (PersistFacts.run_events_put_fails _ _ _ _ _ err). }
  split_and!; [|done|by rewrite Hd].
  intros l e. unfold Persist.putKV, Idb.openDB, Persist.browser_of, Persist.store_put.
  cbn. by rewrite Ho, Hs, Hp.
Qed.

Lemma failed_writes_are_silent_witness :
  Persist.db (Persist.settle
                (Persist.run_events Host.max_arguments Host.Math_exp Host.P
                   [Persist.call_step 5; Persist.run_callback]
                   (Persist.page_load Host.full_disk))) = Host.full_disk.
Proof.
  destruct (failed_writes_are_silent Host.max_arguments Host.Math_exp Host.P Host.full_disk
              [Persist.call_step 5; Persist.run_callback]
              (Idb.DOMError "QuotaExceededError")) as (_ & H & _); [reflexivity..|].
  exact H.
Defined.
